(** * MSES airfoil geometry manipulation (PJ6/mses.py)

    A shallow embedding of [FindLE], [MsesSplit], [MsesInterp] and
    [MsesMerge], and the properties of the split / merge / interpolate
    transform.

    Numbers.  The sequences hold finite numeric values (Python floats or
    ints, NumPy float64).  They are modelled as rationals [Q]: the code only
    compares them ([>=], [==]) and moves them around, and on finite values
    those comparisons agree with the ones on [Q].  Sequences (Python lists
    or 1-D NumPy arrays) are [list Q]; equality of sequences is Leibniz
    equality, element by element.

    Errors.  A Python call either returns a value or raises; [result] is the
    error monad that threads this through the calls. *)

From Stdlib Require Import String.
From Stdlib Require Import List Arith Lia QArith Sorted Permutation.
Import ListNotations.

(** ** Python exceptions and the error monad *)

(** The exceptions the four functions can raise: indexing an empty
    sequence ([IndexError]), [None + 1] ([TypeError]), and NumPy's shape
    and argument checks ([ValueError]).  The source defines no exception
    class of its own and has no [raise] statement. *)
Inductive exn : Type :=
| IndexError
| TypeError
| ValueError.

Definition exn_name (e : exn) : string :=
  match e with
  | IndexError => "IndexError"
  | TypeError => "TypeError"
  | ValueError => "ValueError"
  end%string.

Inductive result (A : Type) : Type :=
| Ok (a : A)
| Raise (e : exn).

Arguments Ok {A} a.
Arguments Raise {A} e.

Definition bind {A B : Type} (r : result A) (k : A -> result B) : result B :=
  match r with
  | Ok a => k a
  | Raise e => Raise e
  end.

Declare Scope py_scope.
Delimit Scope py_scope with py.
Notation "x <- r ;; k" := (bind r (fun x => k))
  (at level 61, r at next level, right associativity) : py_scope.
Notation "' p <- r ;; k" := (bind r (fun p => k))
  (at level 61, p pattern, r at next level, right associativity) : py_scope.
Open Scope py_scope.

(** [raises r name]: the call raised an exception whose class is called
    [name]. *)
Definition raises {A : Type} (r : result A) (name : string) : Prop :=
  exists e, r = Raise e /\ exn_name e = name.

(** ** Python / NumPy sequence primitives *)

(** [s[0]]: [IndexError] on an empty sequence. *)
Definition index0 (s : list Q) : result Q :=
  match s with
  | [] => Raise IndexError
  | v :: _ => Ok v
  end.

(** [s[i::-1]] for [i >= 0]: the items at [i], [i-1], ..., [0]; a start past
    the end is clamped to the last item, and an empty [s] gives []. *)
Definition slice_down (s : list Q) (i : nat) : list Q :=
  rev (firstn (S i) s).

(** [s[k:]] for [k >= 0]; empty when [k] is past the end. *)
Definition slice_from (s : list Q) (k : nat) : list Q :=
  skipn k s.

(** [s[-1::-1]]: the whole sequence, reversed. *)
Definition slice_rev (s : list Q) : list Q := rev s.

(** [np.zeros(n)]. *)
Definition np_zeros (n : nat) : list Q := repeat 0%Q n.

(** [a[lo:hi] = v] on a NumPy array [a] with [lo <= hi <= len a]: [v] must
    have the slice's length, or length 1 (it is then broadcast); anything
    else is NumPy's [ValueError] (could not broadcast input array). *)
Definition set_slice (a : list Q) (lo hi : nat) (v : list Q) : result (list Q) :=
  if Nat.eqb (length v) (hi - lo) then
    Ok (firstn lo a ++ v ++ skipn hi a)
  else
    match v with
    | [c] => Ok (firstn lo a ++ repeat c (hi - lo) ++ skipn hi a)
    | _ => Raise ValueError
    end.

(** ** FindLE *)

(** The [for i, x in enumerate(X[1:])] loop, with [xold] and the counter
    [i] as loop state.  Falling off the end of the loop is [None]. *)
Fixpoint FindLE_loop (xold : Q) (tail : list Q) (i : nat) : option nat :=
  match tail with
  | [] => None
  | x :: rest =>
      if Qle_bool xold x then Some i
      else FindLE_loop x rest (S i)
  end.

(** [FindLE(X)]: [X[0]] raises [IndexError] on an empty [X]; the function
    has no [return] after the loop, so it returns [None] when the loop
    ends. *)
Definition FindLE (X : list Q) : result (option nat) :=
  xold <- index0 X ;;
  Ok (FindLE_loop xold (slice_from X 1) 0).

(** ** MsesSplit *)

(** [up = y[iLE::-1]; lo = y[iLE+1:]].  With [iLE = None] the first slice
    is legal ([y[None::-1]]) and [iLE+1] raises [TypeError]. *)
Definition MsesSplit (x y : list Q) : result (list Q * list Q) :=
  iLE <- FindLE x ;;
  match iLE with
  | None => Raise TypeError
  | Some i => Ok (slice_down y i, slice_from y (i + 1))
  end.

(** ** MsesMerge *)

(** The guard [xlo[0] == xup[0] and ylo[0] == 0 and yup[0] == 0], with
    Python's left-to-right, short-circuit evaluation: an operand is only
    indexed when the ones before it were true. *)
Definition drop_LE_guard (xlo xup ylo yup : list Q) : result bool :=
  a <- index0 xlo ;;
  b <- index0 xup ;;
  if Qeq_bool a b then
    c <- index0 ylo ;;
    if Qeq_bool c 0 then
      d <- index0 yup ;;
      Ok (Qeq_bool d 0)
    else Ok false
  else Ok false.

Definition MsesMerge (xlo xup ylo yup : list Q) : result (list Q * list Q) :=
  g <- drop_LE_guard xlo xup ylo yup ;;
  let xlo := if g then slice_from xlo 1 else xlo in
  let ylo := if g then slice_from ylo 1 else ylo in
  let n1 := length xup in
  let n := (n1 + length xlo)%nat in
  let x := np_zeros n in
  let y := np_zeros n in
  x <- set_slice x 0 n1 (slice_rev xup) ;;
  y <- set_slice y 0 n1 (slice_rev yup) ;;
  x <- set_slice x n1 n xlo ;;
  y <- set_slice y n1 n ylo ;;
  Ok (x, y).

(** ** MsesInterp *)

(** Modelled from the spec: [np.interp] is NumPy's and no part of the
    repository; the spec gives it as standard piecewise-linear interpolation
    over ascending nodes, clamped to the first and last value outside their
    range.  [interp_scan] looks for the segment [x0 <= x < x1] from the
    left; on a node the node's value is returned as it is, and at or past
    the last node the last value. *)
Fixpoint interp_scan (x x0 f0 : Q) (xp fp : list Q) : Q :=
  match xp, fp with
  | x1 :: xp', f1 :: fp' =>
      if Qle_bool x1 x then interp_scan x x1 f1 xp' fp'
      else if Qeq_bool x x0 then f0
      else f0 + (f1 - f0) / (x1 - x0) * (x - x0)
  | _, _ => f0
  end.

Definition interp1 (xp fp : list Q) (x : Q) : Q :=
  match xp, fp with
  | x0 :: xp', f0 :: fp' =>
      if Qle_bool x0 x then interp_scan x x0 f0 xp' fp' else f0
  | _, _ => 0
  end.

(** [np.interp(x, xp, fp)] on a sequence [x]: NumPy raises [ValueError]
    when [xp] is empty and when [fp] and [xp] differ in length. *)
Definition np_interp (x xp fp : list Q) : result (list Q) :=
  match xp with
  | [] => Raise ValueError
  | _ :: _ =>
      if Nat.eqb (length fp) (length xp) then Ok (map (interp1 xp fp) x)
      else Raise ValueError
  end.

Definition MsesInterp (xout xmses ymses : list Q) : result (list Q * list Q) :=
  '(xup_mses, xlo_mses) <- MsesSplit xmses xmses ;;
  '(yup_mses, ylo_mses) <- MsesSplit xmses ymses ;;
  yup <- np_interp xout xup_mses yup_mses ;;
  ylo <- np_interp xout xlo_mses ylo_mses ;;
  Ok (yup, ylo).

(** ** Vocabulary of the specification *)

(** [X[i+1] >= X[i]]: the step from index [i] to [i+1] does not decrease. *)
Definition nondecreasing_step (X : list Q) (i : nat) : Prop :=
  (S i < length X)%nat /\ nth i X 0 <= nth (S i) X 0.

(** [a > b], as a relation. *)
Definition gtQ (a b : Q) : Prop := b < a.

(** MSES ordering with the leading edge at index [iLE]: [x] decreases
    strictly from the trailing edge down to [x[iLE]], then does not decrease
    back to the trailing edge; there is at least one point after the
    leading edge. *)
Definition mses_ordered (x : list Q) (iLE : nat) : Prop :=
  (S iLE < length x)%nat /\
  Sorted gtQ (firstn (S iLE) x) /\
  Sorted Qle (skipn iLE x).

(** Monotonic ascending, and strictly so. *)
Definition ascending (s : list Q) : Prop := StronglySorted Qle s.
Definition strictly_ascending (s : list Q) : Prop := StronglySorted Qlt s.
Definition strictly_decreasing (s : list Q) : Prop := StronglySorted gtQ s.

(** The sequence without its item at index [k]. *)
Definition remove_at (k : nat) (s : list Q) : list Q :=
  firstn k s ++ skipn (S k) s.

(** The leading-edge point is duplicated: the first lower point has the
    first upper point's x, and both y values are exactly zero. *)
Definition LE_duplicated (xlo xup ylo yup : list Q) : Prop :=
  hd 0 xlo == hd 0 xup /\ hd 0 ylo == 0 /\ hd 0 yup == 0.

Open Scope Q_scope.

(** The synthetic curve of the specification, [5,4,3,2,1,2,3,4,5]. *)
Definition synthetic_x : list Q := [5; 4; 3; 2; 1; 2; 3; 4; 5].

(** The index as the specification words it: the smallest [i] with
    [X[i] >= X[i-1]]. *)
Definition stops_decreasing_at (X : list Q) (i : nat) : Prop :=
  (1 <= i < length X)%nat /\
  nth (i - 1) X 0 <= nth i X 0 /\
  (forall j, (1 <= j < i)%nat -> ~ nth (j - 1) X 0 <= nth j X 0).

(** ** Sample curves *)

(** A valid curve whose lower surface repeats an x value. *)
Definition plateau_x : list Q := [3; 2; 1; 2; 2; 3].
Definition plateau_y : list Q := [10; 20; 30; 40; 50; 60].

(** A five-point curve, and a six-point symmetric foil whose leading-edge
    point [(0, 0)] is listed twice. *)
Definition wedge_x : list Q := [3; 2; 1; 2; 3].
Definition wedge_y : list Q := [10; 20; 30; 40; 50].
Definition foil_x : list Q := [1; 0.5; 0; 0; 0.5; 1].
Definition foil_y : list Q := [0; 0.06; 0; 0; -0.06; 0].

(** ** The driver *)

(** [main(geom)] on a file of at least two data rows, from the point where
    [ReadXfoilGeometry] has loaded the two columns as 1-D arrays [x] and
    [z] of the same length, two or more (the [print] calls left out), up to
    its first statement that cannot complete.  Shorter files are outside
    this model: with one data row [np.loadtxt] gives 0-d values, which are
    no sequences, and with none the unpacking inside [ReadXfoilGeometry]
    fails before [main] has its columns.
    [xlo, xup, zlo, zup = MsesSplit(x, z)] unpacks the pair that [MsesSplit]
    returns into four names, which is Python's [ValueError] (not enough
    values to unpack).  What [main] has after that statement, the plots, the
    merge and the calls of the undefined [MsesSplitInterp], is never
    reached. *)
Definition main_split (x z : list Q)
  : result (list Q * list Q * list Q * list Q) :=
  '(_, _) <- MsesSplit x z ;;
  Raise ValueError.

(** ** NumPy's rule for a slice assignment *)

(** A sequence can be assigned to a slice of [n] items when it has [n]
    items or exactly one. *)
Definition fits (v : list Q) (n : nat) : Prop :=
  length v = n \/ length v = 1%nat.

(** What the slice of [n] items holds after [v], which fits, was assigned
    to it: [v] itself, or its one item [n] times. *)
Definition broadcast_to (v : list Q) (n : nat) : list Q :=
  if Nat.eqb (length v) n then v else repeat (hd 0 v) n.

(** * Properties *)

(** Order facts on concrete numbers and sequences. *)
Ltac order_leaf := unfold gtQ, Qlt, Qle; simpl; lia.

Ltac sorted_concrete :=
  repeat first [ apply Sorted_nil | apply Sorted_cons
               | apply HdRel_nil | apply HdRel_cons ];
  order_leaf.

(** ** The functions on the sample curves *)

Example FindLE_wedge : FindLE wedge_x = Ok (Some 2%nat).
Proof. reflexivity. Qed.

Example FindLE_decreasing : FindLE [3; 2; 1] = Ok None.
Proof. reflexivity. Qed.

Example MsesSplit_wedge :
  MsesSplit wedge_x wedge_y = Ok ([30; 20; 10], [40; 50]).
Proof. reflexivity. Qed.

Example MsesSplit_decreasing : MsesSplit [3; 2; 1] [7; 8; 9] = Raise TypeError.
Proof. reflexivity. Qed.

Example MsesMerge_wedge :
  MsesMerge [2; 3] [1; 2; 3] [40; 50] [30; 20; 10] = Ok (wedge_x, wedge_y).
Proof. reflexivity. Qed.

Example MsesMerge_foil :
  MsesMerge [0; 0.5; 1] [0; 0.5; 1] [0; -0.06; 0] [0; 0.06; 0] =
  Ok ([1; 0.5; 0; 0.5; 1], [0; 0.06; 0; -0.06; 0]).
Proof. reflexivity. Qed.

Example MsesInterp_clamps :
  MsesInterp [0; 4] wedge_x wedge_y = Ok ([30; 10], [40; 50]).
Proof. reflexivity. Qed.

(** ** Comparisons *)

Lemma Qle_bool_false (a b : Q) : Qle_bool a b = false <-> b < a.
Proof.
  split; intro H.
  - apply Qnot_le_lt. intro Hle. apply Qle_bool_iff in Hle. congruence.
  - destruct (Qle_bool a b) eqn:E; [|reflexivity].
    apply Qle_bool_iff in E. exfalso. apply (Qlt_not_le _ _ H E).
Qed.

Lemma Qeq_bool_true (a b : Q) : Qeq_bool a b = true <-> a == b.
Proof. split; [apply Qeq_bool_eq | apply Qeq_eq_bool]. Qed.

#[local] Instance gtQ_trans : Transitive gtQ.
Proof. intros a b c Hab Hbc. unfold gtQ in *. eapply Qlt_trans; eassumption. Qed.

#[local] Instance Qle_trans' : Transitive Qle.
Proof. intros a b c. apply Qle_trans. Qed.

(** ** The loop of FindLE *)

(** The counter only offsets the result. *)
Lemma FindLE_loop_shift (tail : list Q) :
  forall xold k, FindLE_loop xold tail (S k) = option_map S (FindLE_loop xold tail k).
Proof.
  induction tail as [|x rest IH]; intros xold k; simpl.
  - reflexivity.
  - destruct (Qle_bool xold x); [reflexivity | apply IH].
Qed.

Lemma FindLE_loop_cons (xold x : Q) (rest : list Q) :
  FindLE_loop xold (x :: rest) 0 =
    if Qle_bool xold x then Some 0%nat
    else option_map S (FindLE_loop x rest 0).
Proof. simpl. now rewrite FindLE_loop_shift. Qed.

Lemma FindLE_cons (xold : Q) (tail : list Q) :
  FindLE (xold :: tail) = Ok (FindLE_loop xold tail 0).
Proof. reflexivity. Qed.

(** The index the loop returns is the first non-decreasing step. *)
Lemma FindLE_loop_first_step (tail : list Q) :
  forall xold i,
    FindLE_loop xold tail 0 = Some i <->
    nondecreasing_step (xold :: tail) i /\
    (forall j, (j < i)%nat -> ~ nondecreasing_step (xold :: tail) j).
Proof.
  unfold nondecreasing_step.
  induction tail as [|x rest IH]; intros xold i.
  - simpl. split; [discriminate | intros [[Hlen _] _]; lia].
  - rewrite FindLE_loop_cons. destruct (Qle_bool xold x) eqn:E.
    + apply Qle_bool_iff in E. split.
      * intros [= <-]. split; [split; [simpl; lia | exact E] | intros j Hj; lia].
      * intros [_ Hmin]. destruct i as [|i]; [reflexivity|].
        exfalso. apply (Hmin 0%nat); [lia | split; [simpl; lia | exact E]].
    + apply Qle_bool_false in E. split.
      * destruct (FindLE_loop x rest 0) as [i'|] eqn:El; [|discriminate].
        intros [= <-]. apply IH in El. destruct El as [[Hlen Hstep] Hmin].
        split; [split; [simpl in *; lia | exact Hstep] |].
        intros [|j] Hj [Hl Hs].
        -- simpl in Hs. apply (Qlt_not_le _ _ E Hs).
        -- apply (Hmin j); [lia | split; [simpl in *; lia | exact Hs]].
      * intros [[Hlen Hstep] Hmin]. destruct i as [|i].
        -- simpl in Hstep. exfalso. apply (Qlt_not_le _ _ E Hstep).
        -- assert (El : FindLE_loop x rest 0 = Some i).
           { apply IH. split; [split; [simpl in *; lia | exact Hstep] |].
             intros j Hj [Hl Hs]. apply (Hmin (S j)); [lia|].
             split; [simpl in *; lia | exact Hs]. }
           now rewrite El.
Qed.

(** The loop finds nothing exactly on a strictly decreasing sequence. *)
Lemma FindLE_loop_None (tail : list Q) :
  forall xold, FindLE_loop xold tail 0 = None <-> Sorted gtQ (xold :: tail).
Proof.
  induction tail as [|x rest IH]; intros xold.
  - simpl. split; [repeat constructor | reflexivity].
  - rewrite FindLE_loop_cons. destruct (Qle_bool xold x) eqn:E.
    + apply Qle_bool_iff in E. split; [discriminate|].
      intro H. inversion H as [|? ? _ Hhd]; subst. inversion Hhd; subst.
      exfalso. eapply Qlt_not_le; eassumption.
    + apply Qle_bool_false in E. split.
      * destruct (FindLE_loop x rest 0) eqn:El; [discriminate|]. intros _.
        constructor; [now apply IH | constructor; exact E].
      * intro H. inversion H as [|? ? Htl _]; subst.
        apply IH in Htl. now rewrite Htl.
Qed.

(** What the loop has passed when it returns [i], as sortedness. *)
Lemma FindLE_loop_sorted (tail : list Q) :
  forall xold i,
    FindLE_loop xold tail 0 = Some i <->
    (S i < length (xold :: tail))%nat /\
    Sorted gtQ (firstn (S i) (xold :: tail)) /\
    nth i (xold :: tail) 0 <= nth (S i) (xold :: tail) 0.
Proof.
  induction tail as [|x rest IH]; intros xold i.
  - simpl. split; [discriminate | intros [Hlen _]; lia].
  - rewrite FindLE_loop_cons. destruct (Qle_bool xold x) eqn:E.
    + apply Qle_bool_iff in E. split.
      * intros [= <-]. simpl. repeat split; [lia | repeat constructor | exact E].
      * intros (_ & Hs & _). destruct i as [|i]; [reflexivity|].
        simpl in Hs. inversion Hs as [|? ? _ Hhd]; subst. inversion Hhd; subst.
        exfalso. eapply Qlt_not_le; eassumption.
    + apply Qle_bool_false in E. split.
      * destruct (FindLE_loop x rest 0) as [i'|] eqn:El; [|discriminate].
        intros [= <-]. apply IH in El. destruct El as (Hlen & Hs & Hstep).
        repeat split; [simpl in *; lia | | exact Hstep].
        change (firstn (S (S i')) (xold :: x :: rest))
          with (xold :: firstn (S i') (x :: rest)).
        constructor; [exact Hs | simpl; constructor; exact E].
      * intros (Hlen & Hs & Hstep). destruct i as [|i].
        -- simpl in Hstep. exfalso. eapply Qlt_not_le; eassumption.
        -- change (firstn (S (S i)) (xold :: x :: rest))
             with (xold :: firstn (S i) (x :: rest)) in Hs.
           inversion Hs as [|? ? Htl _]; subst.
           assert (El : FindLE_loop x rest 0 = Some i).
           { apply IH. repeat split; [simpl in *; lia | exact Htl | exact Hstep]. }
           now rewrite El.
Qed.

(** ** Sorted sequences *)

Section SortedLists.
Variable A : Type.

Lemma StronglySorted_snoc (R : A -> A -> Prop) (l : list A) (a : A) :
  StronglySorted R l -> Forall (fun x => R x a) l ->
  StronglySorted R (l ++ [a]).
Proof.
  induction 1 as [|b l Hl IH Hb]; intro Ha; simpl.
  - repeat constructor.
  - inversion Ha; subst. constructor; [now apply IH|].
    apply Forall_app. split; [exact Hb | now repeat constructor].
Qed.

Lemma StronglySorted_rev (R : A -> A -> Prop) (l : list A) :
  StronglySorted R l -> StronglySorted (fun a b => R b a) (rev l).
Proof.
  induction 1 as [|b l Hl IH Hb]; simpl.
  - constructor.
  - apply StronglySorted_snoc; [exact IH|].
    apply Forall_rev. exact Hb.
Qed.

Lemma StronglySorted_skipn (R : A -> A -> Prop) (l : list A) :
  forall k, StronglySorted R l -> StronglySorted R (skipn k l).
Proof.
  induction l as [|b l IH]; intros [|k] H; simpl; try exact H.
  inversion H; subst. now apply IH.
Qed.
End SortedLists.

Lemma skipn_nth_cons (l : list Q) :
  forall i, (i < length l)%nat -> skipn i l = nth i l 0 :: skipn (S i) l.
Proof.
  induction l as [|a l IH]; intros [|i] H; simpl in *; try lia.
  - reflexivity.
  - apply IH. lia.
Qed.

(** ** FindLE *)

Lemma FindLE_Some_sorted (X : list Q) (i : nat) :
  FindLE X = Ok (Some i) <->
  (S i < length X)%nat /\ Sorted gtQ (firstn (S i) X) /\
  nth i X 0 <= nth (S i) X 0.
Proof.
  destruct X as [|xold tail].
  - simpl. split; [discriminate | intros [Hlen _]; lia].
  - rewrite FindLE_cons, <- FindLE_loop_sorted.
    split; [now intros [= ->] | now intros ->].
Qed.

Lemma FindLE_None_iff (X : list Q) :
  FindLE X = Ok None <-> X <> [] /\ Sorted gtQ X.
Proof.
  destruct X as [|xold tail].
  - simpl. split; [discriminate | now intros [H _]].
  - rewrite FindLE_cons. split.
    + intros [= H]. apply FindLE_loop_None in H. split; [discriminate | exact H].
    + intros [_ H]. apply FindLE_loop_None in H. now rewrite H.
Qed.

(** On an MSES-ordered sequence [FindLE] returns the leading edge. *)
Lemma mses_ordered_FindLE (x : list Q) (iLE : nat) :
  mses_ordered x iLE -> FindLE x = Ok (Some iLE).
Proof.
  intros (Hlen & Hup & Hlo). apply FindLE_Some_sorted.
  repeat split; [exact Hlen | exact Hup |].
  rewrite (skipn_nth_cons x iLE) in Hlo by lia.
  rewrite (skipn_nth_cons x (S iLE)) in Hlo by lia.
  inversion Hlo as [|? ? _ Hhd]; subst. now inversion Hhd.
Qed.

(** ** MsesSplit *)

Lemma MsesSplit_Some (x y : list Q) (i : nat) :
  FindLE x = Ok (Some i) ->
  MsesSplit x y = Ok (rev (firstn (S i) y), skipn (S i) y).
Proof.
  intro H. unfold MsesSplit. rewrite H. simpl.
  unfold slice_down, slice_from. now rewrite Nat.add_1_r.
Qed.

Lemma MsesSplit_returns (x y up lo : list Q) :
  MsesSplit x y = Ok (up, lo) ->
  exists i, FindLE x = Ok (Some i) /\
            up = rev (firstn (S i) y) /\ lo = skipn (S i) y.
Proof.
  intro H. unfold MsesSplit in H.
  destruct (FindLE x) as [[i|]|e] eqn:E; simpl in H; try discriminate.
  exists i. unfold slice_down, slice_from in H. rewrite Nat.add_1_r in H.
  injection H as <- <-. repeat split; reflexivity.
Qed.

(** ** MsesMerge *)

(** Filling the front of a fresh array. *)
Lemma set_slice_front (v : list Q) (n1 m : nat) :
  length v = n1 ->
  set_slice (np_zeros (n1 + m)) 0 n1 v = Ok (v ++ np_zeros m).
Proof.
  intros <-. unfold set_slice, np_zeros.
  rewrite Nat.sub_0_r, Nat.eqb_refl. simpl.
  rewrite repeat_app, skipn_app, repeat_length, Nat.sub_diag.
  rewrite skipn_all2 by (rewrite repeat_length; lia). reflexivity.
Qed.

(** Filling the rest of it. *)
Lemma set_slice_back (v w : list Q) (n1 m : nat) :
  length v = n1 -> length w = m ->
  set_slice (v ++ np_zeros m) n1 (n1 + m) w = Ok (v ++ w).
Proof.
  intros <- <-. unfold set_slice, np_zeros.
  replace (length v + length w - length v)%nat with (length w) by lia.
  rewrite Nat.eqb_refl.
  rewrite firstn_app, Nat.sub_diag, firstn_all. simpl. rewrite app_nil_r.
  rewrite skipn_all2 by (rewrite length_app, repeat_length; lia).
  now rewrite app_nil_r.
Qed.

(** With paired sequences of equal lengths the four slice assignments
    build [reversed upper ++ lower]. *)
Lemma MsesMerge_paired (xlo xup ylo yup : list Q) (g : bool) :
  drop_LE_guard xlo xup ylo yup = Ok g ->
  length xlo = length ylo -> length xup = length yup ->
  MsesMerge xlo xup ylo yup =
  Ok (rev xup ++ (if g then tl xlo else xlo),
      rev yup ++ (if g then tl ylo else ylo)).
Proof.
  intros Hg Hlo Hup. unfold MsesMerge. rewrite Hg. cbn [bind].
  unfold slice_from, slice_rev.
  change (skipn 1 xlo) with (tl xlo). change (skipn 1 ylo) with (tl ylo).
  set (xlo' := if g then tl xlo else xlo).
  set (ylo' := if g then tl ylo else ylo).
  assert (Hlo' : length ylo' = length xlo').
  { subst xlo' ylo'. destruct g; [|now symmetry].
    destruct xlo, ylo; simpl in *; congruence. }
  rewrite !set_slice_front by (rewrite length_rev; congruence).
  cbn [bind].
  rewrite set_slice_back by (rewrite ?length_rev; congruence).
  cbn [bind].
  rewrite set_slice_back by (rewrite ?length_rev; congruence).
  reflexivity.
Qed.

(** The guard on non-empty surfaces. *)
Lemma drop_LE_guard_nonempty (xlo xup ylo yup : list Q) :
  xlo <> [] -> xup <> [] -> ylo <> [] -> yup <> [] ->
  exists g, drop_LE_guard xlo xup ylo yup = Ok g /\
            (g = true <-> LE_duplicated xlo xup ylo yup).
Proof.
  intros Hxl Hxu Hyl Hyu. unfold drop_LE_guard, LE_duplicated.
  destruct xlo as [|a xlo]; [easy|]. destruct xup as [|b xup]; [easy|].
  destruct ylo as [|c ylo]; [easy|]. destruct yup as [|d yup]; [easy|].
  simpl.
  destruct (Qeq_bool a b) eqn:Eab; [destruct (Qeq_bool c 0) eqn:Ec|]; simpl.
  - exists (Qeq_bool d 0). split; [reflexivity|].
    rewrite Qeq_bool_true in *. tauto.
  - exists false. split; [reflexivity|]. split; [discriminate|].
    intros (_ & Hc & _). apply Qeq_bool_true in Hc. congruence.
  - exists false. split; [reflexivity|]. split; [discriminate|].
    intros (Hab & _). apply Qeq_bool_true in Hab. congruence.
Qed.

Lemma length_nonempty (s t : list Q) :
  length s = length t -> s <> [] -> t <> [].
Proof. destruct s, t; simpl; congruence. Qed.

Lemma length_tl (s : list Q) : length (tl s) = (length s - 1)%nat.
Proof. destruct s; simpl; lia. Qed.

(** ** Interpolation at the nodes *)

Lemma interp_scan_at_node (xp fp : list Q) (x0 f0 : Q) :
  Forall (Qlt x0) xp -> interp_scan x0 x0 f0 xp fp = f0.
Proof.
  intro H. destruct xp as [|x1 xp]; [reflexivity|].
  destruct fp as [|f1 fp]; [reflexivity|]. simpl.
  inversion H as [|? ? Hlt _]; subst.
  apply Qle_bool_false in Hlt. rewrite Hlt.
  now rewrite (Qeq_eq_bool x0 x0 (Qeq_refl x0)).
Qed.

Lemma interp_scan_nodes (xp : list Q) :
  forall fp x0 f0,
    strictly_ascending (x0 :: xp) -> length fp = length xp ->
    map (fun x => interp_scan x x0 f0 xp fp) (x0 :: xp) = f0 :: fp.
Proof.
  unfold strictly_ascending.
  induction xp as [|x1 xp IH]; intros fp x0 f0 Hs Hlen.
  - destruct fp; [reflexivity | discriminate].
  - destruct fp as [|f1 fp]; [discriminate|].
    inversion Hs as [|? ? Htl Hhd]; subst.
    rewrite map_cons, interp_scan_at_node by exact Hhd. f_equal.
    transitivity (map (fun x => interp_scan x x1 f1 xp fp) (x1 :: xp));
      [|apply IH; [exact Htl | simpl in Hlen; lia]].
    apply map_ext_in. intros x Hx.
    assert (Hle : x1 <= x).
    { destruct Hx as [<- | Hx]; [apply Qle_refl|].
      inversion Htl as [|? ? _ Hall]; subst.
      rewrite Forall_forall in Hall. apply Qlt_le_weak. now apply Hall. }
    apply Qle_bool_iff in Hle. cbn [interp_scan]. now rewrite Hle.
Qed.

(** Interpolating a strictly ascending table at its own nodes gives the
    table's values back. *)
Lemma np_interp_nodes (xp fp : list Q) :
  strictly_ascending xp -> xp <> [] -> length fp = length xp ->
  np_interp xp xp fp = Ok fp.
Proof.
  intros Hs Hne Hlen. unfold np_interp.
  destruct xp as [|x0 xp]; [easy|]. rewrite Hlen, Nat.eqb_refl.
  destruct fp as [|f0 fp]; [discriminate|]. f_equal.
  transitivity (map (fun x => interp_scan x x0 f0 xp fp) (x0 :: xp));
    [|apply interp_scan_nodes; [exact Hs | simpl in Hlen; lia]].
  apply map_ext_in. intros x Hx. unfold interp1.
  assert (Hle : x0 <= x).
  { destruct Hx as [<- | Hx]; [apply Qle_refl|].
    inversion Hs as [|? ? _ Hall]; subst.
    rewrite Forall_forall in Hall. apply Qlt_le_weak. now apply Hall. }
  apply Qle_bool_iff in Hle. now rewrite Hle.
Qed.

(** [np.interp] returns whenever it is given a non-empty table with as many
    values as nodes. *)
Lemma np_interp_returns (x xp fp : list Q) :
  xp <> [] -> length fp = length xp ->
  np_interp x xp fp = Ok (map (interp1 xp fp) x).
Proof.
  intros Hne Hlen. unfold np_interp. destruct xp; [easy|].
  now rewrite Hlen, Nat.eqb_refl.
Qed.

(** ** The two surfaces of a split *)

(** The upper x-surface is strictly ascending, whatever comes after the
    leading edge. *)
Lemma upper_strictly_ascending (x : list Q) (i : nat) :
  FindLE x = Ok (Some i) -> strictly_ascending (rev (firstn (S i) x)).
Proof.
  intro H. apply FindLE_Some_sorted in H. destruct H as (_ & Hs & _).
  apply Sorted_StronglySorted in Hs; [|exact gtQ_trans].
  exact (StronglySorted_rev _ _ _ Hs).
Qed.

Lemma strictly_ascending_ascending (s : list Q) :
  strictly_ascending s -> ascending s.
Proof.
  induction 1 as [|a l Hl IH Ha]; constructor; [exact IH|].
  eapply Forall_impl; [|exact Ha]. intros b. apply Qlt_le_weak.
Qed.

Lemma split_lengths (s : list Q) (i : nat) :
  (S i < length s)%nat ->
  length (rev (firstn (S i) s)) = S i /\
  length (skipn (S i) s) = (length s - S i)%nat /\
  skipn (S i) s <> [].
Proof.
  intro H. rewrite length_rev, firstn_length_le, length_skipn by lia.
  repeat split. intro E. apply (f_equal (@length Q)) in E.
  rewrite length_skipn in E. simpl in E. lia.
Qed.

Lemma tl_skipn (s : list Q) : forall k, tl (skipn k s) = skipn (S k) s.
Proof.
  induction s as [|a s IH]; intros [|k]; try reflexivity.
  change (tl (skipn k s) = skipn (S k) s). apply IH.
Qed.

(** Splitting [x] against itself and [y] against [x], then merging: the
    curve comes back, without its point at [iLE + 1] when the guard of
    [MsesMerge] fires. *)
Lemma split_merge_general (x y : list Q) (i : nat) :
  FindLE x = Ok (Some i) -> length y = length x ->
  exists xup xlo yup ylo,
    MsesSplit x x = Ok (xup, xlo) /\
    MsesSplit x y = Ok (yup, ylo) /\
    (~ LE_duplicated xlo xup ylo yup ->
     MsesMerge xlo xup ylo yup = Ok (x, y)) /\
    (LE_duplicated xlo xup ylo yup ->
     MsesMerge xlo xup ylo yup = Ok (remove_at (S i) x, remove_at (S i) y)).
Proof.
  intros HLE Hlen.
  pose proof (proj1 (FindLE_Some_sorted x i) HLE) as (Hi & _ & _).
  assert (Hiy : (S i < length y)%nat) by lia.
  destruct (split_lengths x i Hi) as (Hxu & Hxl & Hxne).
  destruct (split_lengths y i Hiy) as (Hyu & Hyl & Hyne).
  exists (rev (firstn (S i) x)), (skipn (S i) x),
         (rev (firstn (S i) y)), (skipn (S i) y).
  split; [now apply MsesSplit_Some|]. split; [now apply MsesSplit_Some|].
  assert (Hxune : rev (firstn (S i) x) <> [])
    by (intro E; rewrite E in Hxu; discriminate).
  assert (Hyune : rev (firstn (S i) y) <> [])
    by (intro E; rewrite E in Hyu; discriminate).
  destruct (drop_LE_guard_nonempty _ _ _ _ Hxne Hxune Hyne Hyune) as (g & Hg & Hiff).
  rewrite (MsesMerge_paired _ _ _ _ g Hg) by lia.
  rewrite !rev_involutive, !tl_skipn. unfold remove_at.
  split; intro Hd.
  - destruct g; [exfalso; apply Hd; now apply Hiff|].
    now rewrite !firstn_skipn.
  - apply Hiff in Hd. subst g. reflexivity.
Qed.

(** C1.  Round trip: for every MSES-ordered curve [(x, y)] with its leading
    edge at [iLE], merging the surfaces that [MsesSplit] makes of [x]
    (against [x]) and of [y] (against [x]) gives [(x, y)] back exactly;
    when the de-duplication guard fires (the first lower point has the first
    upper point's x and both y values are zero) it gives [(x, y)] without
    that one point, the one after the leading edge. *)
Theorem split_merge_round_trip (x y : list Q) (iLE : nat) :
  mses_ordered x iLE -> length y = length x ->
  exists xup xlo yup ylo,
    MsesSplit x x = Ok (xup, xlo) /\
    MsesSplit x y = Ok (yup, ylo) /\
    (~ LE_duplicated xlo xup ylo yup ->
     MsesMerge xlo xup ylo yup = Ok (x, y)) /\
    (LE_duplicated xlo xup ylo yup ->
     MsesMerge xlo xup ylo yup =
     Ok (remove_at (S iLE) x, remove_at (S iLE) y)).
Proof.
  intros Hord Hlen. apply split_merge_general; [|exact Hlen].
  now apply mses_ordered_FindLE.
Qed.

(** C2.  When [FindLE] finds a split index in [x] and [y] is as long as
    [x], the two outputs of [MsesSplit] have [length y] items together, and
    they are the items of [y], none twice and none missing: the upper
    output reversed, followed by the lower one, is [y]. *)
Theorem split_conserves_points (x y : list Q) (i : nat) :
  FindLE x = Ok (Some i) -> length y = length x ->
  exists up lo,
    MsesSplit x y = Ok (up, lo) /\
    (length up + length lo = length y)%nat /\
    rev up ++ lo = y /\
    Permutation (up ++ lo) y.
Proof.
  intros HLE Hlen.
  exists (rev (firstn (S i) y)), (skipn (S i) y).
  split; [now apply MsesSplit_Some|].
  assert (Hcat : rev (rev (firstn (S i) y)) ++ skipn (S i) y = y)
    by (rewrite rev_involutive; apply firstn_skipn).
  split; [|split; [exact Hcat|]].
  - rewrite <- Hcat at 3. now rewrite length_app, !length_rev.
  - rewrite <- Hcat at 3. apply Permutation_app_tail.
    rewrite rev_involutive. symmetry. apply Permutation_rev.
Qed.

(** C8.  For every MSES-ordered [x], both x-sequences that [MsesSplit]
    makes of [x] against itself are ascending.  The upper one is the
    reversal of the strictly decreasing run that ends at the leading edge,
    which makes it (strictly) ascending. *)
Theorem split_x_ascending (x : list Q) (iLE : nat) :
  mses_ordered x iLE ->
  exists xup xlo,
    MsesSplit x x = Ok (xup, xlo) /\
    ascending xup /\ ascending xlo /\
    xup = rev (firstn (S iLE) x) /\
    strictly_decreasing (firstn (S iLE) x) /\
    strictly_ascending xup.
Proof.
  intros Hord. pose proof (mses_ordered_FindLE x iLE Hord) as HLE.
  destruct Hord as (Hlen & Hup & Hlo).
  exists (rev (firstn (S iLE) x)), (skipn (S iLE) x).
  split; [now apply MsesSplit_Some|].
  pose proof (upper_strictly_ascending x iLE HLE) as Hsa.
  split; [now apply strictly_ascending_ascending|].
  split; [|split; [reflexivity | split; [|exact Hsa]]].
  - apply Sorted_StronglySorted in Hlo; [|exact Qle_trans'].
    replace (S iLE) with (1 + iLE)%nat by lia.
    rewrite <- skipn_skipn. now apply StronglySorted_skipn.
  - apply Sorted_StronglySorted; [exact gtQ_trans | exact Hup].
Qed.

(** C6, as stated, fails on paired sequences of equal lengths when a
    surface is empty: the guard indexes [xlo[0]] and [xup[0]] first, so
    [MsesMerge] raises [IndexError] and returns no sequence. *)
Lemma MsesMerge_empty_surface :
  length (@nil Q) = length (@nil Q) /\
  length [2] = length [1] /\
  MsesMerge [] [1] [] [2] = Raise IndexError /\
  MsesMerge [1] [] [2] [] = Raise IndexError /\
  ~ (exists x y, MsesMerge [] [1] [] [2] = Ok (x, y)).
Proof.
  repeat split; try reflexivity. intros (x & y & H). discriminate H.
Qed.

(** C6, amended.  For lower and upper surfaces with paired sequences of
    equal lengths and at least one point each (so that [xlo[0]] and
    [xup[0]] exist), [MsesMerge] returns sequences whose first
    [length xup] items are
    the upper surface reversed, followed by the lower surface as it is; the
    lower surface loses its first point exactly when [xlo[0] = xup[0]],
    [ylo[0] = 0] and [yup[0] = 0], so the length is
    [length xup + length xlo], minus one exactly in that case. *)
Theorem merge_layout (xlo xup ylo yup : list Q) :
  length ylo = length xlo -> length yup = length xup ->
  xlo <> [] -> xup <> [] ->
  exists x y,
    MsesMerge xlo xup ylo yup = Ok (x, y) /\
    firstn (length xup) x = rev xup /\
    firstn (length xup) y = rev yup /\
    (LE_duplicated xlo xup ylo yup ->
     skipn (length xup) x = tl xlo /\ skipn (length xup) y = tl ylo /\
     length x = (length xup + length xlo - 1)%nat /\
     length y = length x) /\
    (~ LE_duplicated xlo xup ylo yup ->
     skipn (length xup) x = xlo /\ skipn (length xup) y = ylo /\
     length x = (length xup + length xlo)%nat /\
     length y = length x).
Proof.
  intros Hlo Hup Hxl Hxu.
  assert (Hyl : ylo <> []) by (apply (length_nonempty xlo); congruence).
  assert (Hyu : yup <> []) by (apply (length_nonempty xup); congruence).
  destruct (drop_LE_guard_nonempty _ _ _ _ Hxl Hxu Hyl Hyu) as (g & Hg & Hiff).
  rewrite (MsesMerge_paired _ _ _ _ g Hg) by congruence.
  eexists _, _. split; [reflexivity|].
  assert (Hfx : forall t, firstn (length xup) (rev xup ++ t) = rev xup).
  { intro t. rewrite <- (length_rev xup), firstn_app, Nat.sub_diag, firstn_all.
    simpl. apply app_nil_r. }
  assert (Hfy : forall t, firstn (length xup) (rev yup ++ t) = rev yup).
  { intro t. rewrite <- Hup, <- (length_rev yup), firstn_app, Nat.sub_diag.
    rewrite firstn_all. simpl. apply app_nil_r. }
  assert (Hsx : forall t, skipn (length xup) (rev xup ++ t) = t).
  { intro t. rewrite <- (length_rev xup), skipn_app, Nat.sub_diag, skipn_all.
    reflexivity. }
  assert (Hsy : forall t, skipn (length xup) (rev yup ++ t) = t).
  { intro t. rewrite <- Hup, <- (length_rev yup), skipn_app, Nat.sub_diag.
    rewrite skipn_all. reflexivity. }
  rewrite Hfx, Hfy, Hsx, Hsy, !length_app, !length_rev.
  split; [reflexivity|]. split; [reflexivity|]. split; intro Hd.
  - apply Hiff in Hd. subst g. rewrite !length_tl.
    assert (0 < length xlo)%nat by (destruct xlo; simpl; [easy | lia]).
    repeat split; lia.
  - destruct g; [exfalso; apply Hd; now apply Hiff|]. repeat split; lia.
Qed.

(** ** Where FindLE stops *)

(** No call raises an exception of a class the source does not have. *)
Lemma raises_known_class {A : Type} (r : result A) (name : string) :
  raises r name ->
  name = "IndexError"%string \/ name = "TypeError"%string \/
  name = "ValueError"%string.
Proof. intros (e & _ & <-). destruct e; simpl; auto. Qed.

(** C3, as stated, fails on the synthetic curve: it has nine values and
    starts with a decreasing step, [FindLE] returns 4, and [X[4] >= X[3]]
    is false ([1 >= 2]). *)
Lemma FindLE_not_stops_decreasing_index :
  (2 <= length synthetic_x)%nat /\
  nth 1 synthetic_x 0 < nth 0 synthetic_x 0 /\
  FindLE synthetic_x = Ok (Some 4%nat) /\
  ~ stops_decreasing_at synthetic_x 4.
Proof.
  split; [simpl; lia|]. split; [order_leaf|]. split; [reflexivity|].
  intros (_ & H & _). revert H. order_leaf.
Qed.

(** C3, amended.  [FindLE] returns [i] exactly when [i] is the smallest
    index with [X[i+1] >= X[i]]: a 0-based offset into the tail [X[1:]],
    and in [X] the index of the last item of the strictly decreasing run.
    In particular it returns that index whenever there is one. *)
Theorem FindLE_first_nondecreasing_step (X : list Q) (i : nat) :
  FindLE X = Ok (Some i) <->
  nondecreasing_step X i /\
  (forall j, (j < i)%nat -> ~ nondecreasing_step X j).
Proof.
  destruct X as [|xold tail].
  - simpl. split; [discriminate | intros [[Hlen _] _]; simpl in Hlen; lia].
  - rewrite FindLE_cons, <- FindLE_loop_first_step.
    split; [now intros [= ->] | now intros ->].
Qed.

(** C4, as stated, fails: on [5,4,3,2,1,2,3,4,5] the result is not 3. *)
Lemma FindLE_synthetic_not_3 : FindLE synthetic_x <> Ok (Some 3%nat).
Proof. discriminate. Qed.

(** C4, amended.  On [5,4,3,2,1,2,3,4,5] [FindLE] returns 4, the 0-based
    position of the value 1, which is the minimum of the sequence. *)
Theorem FindLE_synthetic :
  FindLE synthetic_x = Ok (Some 4%nat) /\
  nth 4 synthetic_x 0 = 1 /\
  Forall (fun v => 1 <= v) synthetic_x.
Proof.
  split; [reflexivity|]. split; [reflexivity|].
  unfold synthetic_x. repeat constructor; order_leaf.
Qed.

(** C5, as stated, fails: [FindLE] raises no [MalformedCurveError].  On
    [1,2,3,4,5] it returns 0; on the strictly decreasing [3,2,1] and on the
    one-point [7] it returns [None]; on the empty sequence it raises
    [IndexError]. *)
Lemma FindLE_no_MalformedCurveError :
  FindLE [1; 2; 3; 4; 5] = Ok (Some 0%nat) /\
  ~ raises (FindLE [1; 2; 3; 4; 5]) "MalformedCurveError" /\
  ~ raises (FindLE [3; 2; 1]) "MalformedCurveError" /\
  ~ raises (FindLE [7]) "MalformedCurveError" /\
  ~ raises (FindLE []) "MalformedCurveError".
Proof.
  split; [reflexivity|].
  repeat split; intros (e & H & Hn); vm_compute in H;
    try discriminate H.
  injection H as <-. discriminate Hn.
Qed.

(** C5, amended.  On every non-empty sequence without a non-decreasing
    step, that is every strictly decreasing sequence, a one-point sequence
    included, [FindLE] raises nothing and returns [None]; on the empty
    sequence it raises [IndexError]; on [1,2,3,4,5] it returns 0, the first
    step being non-decreasing already.  No input makes it raise
    [MalformedCurveError]. *)
Theorem FindLE_without_leading_edge (X : list Q) :
  X <> [] -> Sorted gtQ X ->
  FindLE X = Ok None /\
  FindLE [] = Raise IndexError /\
  FindLE [1; 2; 3; 4; 5] = Ok (Some 0%nat) /\
  (forall X', ~ raises (FindLE X') "MalformedCurveError").
Proof.
  intros Hne Hs. split; [now apply FindLE_None_iff|].
  split; [reflexivity|]. split; [reflexivity|].
  intros X' H. apply raises_known_class in H.
  destruct H as [H | [H | H]]; discriminate H.
Qed.

(** ** MsesInterp at the original nodes *)

Lemma plateau_ordered : mses_ordered plateau_x 2.
Proof. repeat split; [simpl; lia | sorted_concrete | sorted_concrete]. Qed.

(** No interpolant that is a function of the target x can return two
    different values at the repeated node, whatever it computes. *)
Remark repeated_node_no_interpolant (f : Q -> Q) :
  map f (skipn 3 plateau_x) <> skipn 3 plateau_y.
Proof.
  simpl. intros [= H1 H2 _]. rewrite H1 in H2. discriminate H2.
Qed.

(** C7, as stated, fails on a valid curve whose lower surface repeats an x
    value: the lower surface is [x = 2,2,3], [y = 40,50,60], and at its own
    nodes [MsesInterp] returns [50,50,60]. *)
Lemma MsesInterp_repeated_node :
  mses_ordered plateau_x 2 /\
  MsesSplit plateau_x plateau_x = Ok ([1; 2; 3], [2; 2; 3]) /\
  MsesSplit plateau_x plateau_y = Ok ([30; 20; 10], [40; 50; 60]) /\
  MsesInterp [2; 2; 3] plateau_x plateau_y = Ok ([20; 20; 10], [50; 50; 60]) /\
  [50; 50; 60] <> [40; 50; 60].
Proof.
  split; [exact plateau_ordered|].
  repeat split; try reflexivity. discriminate.
Qed.

Lemma MsesInterp_unfold (xout x y : list Q) (i : nat) :
  FindLE x = Ok (Some i) ->
  MsesInterp xout x y =
  (yup <- np_interp xout (rev (firstn (S i) x)) (rev (firstn (S i) y)) ;;
   ylo <- np_interp xout (skipn (S i) x) (skipn (S i) y) ;;
   Ok (yup, ylo)).
Proof.
  intro H. unfold MsesInterp. now rewrite !(MsesSplit_Some x _ i H).
Qed.

(** C7, amended.  For every MSES-ordered curve, [MsesInterp] at the upper
    surface's own x-nodes returns the upper surface's y values exactly, and
    at the lower surface's own x-nodes it returns the lower surface's y
    values exactly provided the lower x-nodes are strictly ascending (no
    x value repeated). *)
Theorem MsesInterp_exact_at_nodes (x y : list Q) (iLE : nat) :
  mses_ordered x iLE -> length y = length x ->
  exists xup xlo yup ylo,
    MsesSplit x x = Ok (xup, xlo) /\
    MsesSplit x y = Ok (yup, ylo) /\
    (exists lo', MsesInterp xup x y = Ok (yup, lo')) /\
    (strictly_ascending xlo ->
     exists up', MsesInterp xlo x y = Ok (up', ylo)).
Proof.
  intros Hord Hlen. pose proof (mses_ordered_FindLE x iLE Hord) as HLE.
  destruct Hord as (Hi & _ & _).
  assert (Hiy : (S iLE < length y)%nat) by lia.
  destruct (split_lengths x iLE Hi) as (Hxu & Hxl & Hxne).
  destruct (split_lengths y iLE Hiy) as (Hyu & Hyl & Hyne).
  assert (Hxune : rev (firstn (S iLE) x) <> [])
    by (intro E; rewrite E in Hxu; discriminate).
  exists (rev (firstn (S iLE) x)), (skipn (S iLE) x),
         (rev (firstn (S iLE) y)), (skipn (S iLE) y).
  split; [now apply MsesSplit_Some|]. split; [now apply MsesSplit_Some|].
  rewrite !(MsesInterp_unfold _ x y iLE HLE). split.
  - rewrite np_interp_nodes;
      [|now apply upper_strictly_ascending | exact Hxune | lia].
    rewrite np_interp_returns by (assumption || lia).
    cbn [bind]. eexists. reflexivity.
  - intro Hsa.
    rewrite (np_interp_returns _ (rev (firstn (S iLE) x))) by (assumption || lia).
    rewrite np_interp_nodes by (assumption || lia).
    cbn [bind]. eexists. reflexivity.
Qed.

(** ** Sequences that do not pair up, and empty surfaces *)

(** The source has no exception class of the specification's names. *)
Lemma never_raises_other {A : Type} (r : result A) (name : string) :
  name <> "IndexError"%string -> name <> "TypeError"%string ->
  name <> "ValueError"%string -> ~ raises r name.
Proof.
  intros H1 H2 H3 H. apply raises_known_class in H. tauto.
Qed.

(** C9, as stated, fails: with a one-item [y] against a five-item [x],
    [MsesSplit] returns; with one-item y sequences against longer x
    sequences [MsesMerge] returns too (the item is broadcast); [MsesInterp]
    raises NumPy's [ValueError]. *)
Lemma no_LengthMismatchError :
  MsesSplit [3; 2; 1; 2; 3] [7] = Ok ([7], []) /\
  ~ raises (MsesSplit [3; 2; 1; 2; 3] [7]) "LengthMismatchError" /\
  MsesMerge [2; 3] [1; 2; 3] [40] [30] =
    Ok ([3; 2; 1; 2; 3], [30; 30; 30; 40; 40]) /\
  ~ raises (MsesMerge [2; 3] [1; 2; 3] [40] [30]) "LengthMismatchError" /\
  MsesInterp [1] [3; 2; 1; 2; 3] [7] = Raise ValueError /\
  ~ raises (MsesInterp [1] [3; 2; 1; 2; 3] [7]) "LengthMismatchError".
Proof.
  repeat split; try reflexivity;
    apply never_raises_other; discriminate.
Qed.

(** C9, amended.  The three functions never raise [LengthMismatchError];
    they do not compare lengths.  When [FindLE] finds the index [i] in [x],
    [MsesSplit] slices a [y] of any length at [i] and returns, and
    [MsesInterp] with a [y] of another length than [x] raises [ValueError],
    from [np.interp]. *)
Theorem length_mismatch_behaviour (xout x y : list Q) (i : nat) :
  FindLE x = Ok (Some i) -> length y <> length x ->
  MsesSplit x y = Ok (rev (firstn (S i) y), skipn (S i) y) /\
  MsesInterp xout x y = Raise ValueError /\
  (forall x' y', ~ raises (MsesSplit x' y') "LengthMismatchError") /\
  (forall xout' x' y', ~ raises (MsesInterp xout' x' y') "LengthMismatchError") /\
  (forall xlo xup ylo yup,
      ~ raises (MsesMerge xlo xup ylo yup) "LengthMismatchError").
Proof.
  intros HLE Hlen. split; [now apply MsesSplit_Some|]. split.
  - rewrite (MsesInterp_unfold _ x y i HLE).
    pose proof (proj1 (FindLE_Some_sorted x i) HLE) as (Hi & _ & _).
    destruct (split_lengths x i Hi) as (Hxu & Hxl & Hxne).
    unfold np_interp at 1.
    destruct (rev (firstn (S i) x)) as [|a up] eqn:Eup; [discriminate|].
    destruct (Nat.eqb (length (rev (firstn (S i) y))) (length (a :: up))) eqn:E1;
      [|reflexivity].
    cbn [bind]. unfold np_interp.
    destruct (skipn (S i) x) as [|b lo] eqn:Elo; [easy|].
    destruct (Nat.eqb (length (skipn (S i) y)) (length (b :: lo))) eqn:E2;
      [|reflexivity].
    exfalso. apply Nat.eqb_eq in E1, E2.
    rewrite length_rev, length_firstn in E1. rewrite length_skipn in E2.
    lia.
  - repeat split; intros; apply never_raises_other; discriminate.
Qed.

(** C10, as stated, fails: with the leading edge at the first index
    [MsesSplit] returns (a one-point upper surface); it returns an empty
    lower surface when [y] ends at the leading edge; [MsesMerge] returns
    when the guard empties a one-point lower surface, and given an empty
    lower surface it raises [IndexError]. *)
Lemma no_EmptySurfaceError :
  FindLE [1; 2; 3] = Ok (Some 0%nat) /\
  MsesSplit [1; 2; 3] [7; 8; 9] = Ok ([7], [8; 9]) /\
  MsesSplit [3; 2; 1; 2; 3] [7; 8; 9] = Ok ([9; 8; 7], []) /\
  ~ raises (MsesSplit [3; 2; 1; 2; 3] [7; 8; 9]) "EmptySurfaceError" /\
  MsesMerge [0] [0] [0] [0] = Ok ([0], [0]) /\
  MsesMerge [] [1] [] [2] = Raise IndexError /\
  ~ raises (MsesMerge [] [1] [] [2]) "EmptySurfaceError".
Proof.
  repeat split; try reflexivity;
    apply never_raises_other; discriminate.
Qed.

(** C10, amended.  [MsesSplit] and [MsesMerge] never raise
    [EmptySurfaceError].  On [x] and [y] of equal length no surface that
    [MsesSplit] returns is empty: the index [FindLE] finds is never the
    last one, and at index 0 the upper surface is the one point [y[0]].
    [MsesMerge] with an empty [xlo] or an empty [xup] raises
    [IndexError]. *)
Theorem empty_surface_behaviour (x y up lo : list Q) :
  MsesSplit x y = Ok (up, lo) -> length y = length x ->
  up <> [] /\ lo <> [] /\
  (forall xlo xup ylo yup,
      xlo = [] \/ xup = [] ->
      MsesMerge xlo xup ylo yup = Raise IndexError) /\
  (forall x' y', ~ raises (MsesSplit x' y') "EmptySurfaceError") /\
  (forall xlo xup ylo yup,
      ~ raises (MsesMerge xlo xup ylo yup) "EmptySurfaceError").
Proof.
  intros Hs Hlen. apply MsesSplit_returns in Hs.
  destruct Hs as (i & HLE & -> & ->).
  pose proof (proj1 (FindLE_Some_sorted x i) HLE) as (Hi & _ & _).
  assert (Hiy : (S i < length y)%nat) by lia.
  destruct (split_lengths y i Hiy) as (Hyu & Hyl & Hyne).
  split; [intro E; rewrite E in Hyu; discriminate|].
  split; [exact Hyne|]. split.
  - intros xlo xup ylo yup [-> | ->]; [reflexivity|].
    unfold MsesMerge, drop_LE_guard. now destruct xlo.
  - split; intros; apply never_raises_other; discriminate.
Qed.

(** ** The theorems at concrete curves *)

Lemma wedge_ordered : mses_ordered wedge_x 2.
Proof. repeat split; [simpl; lia | sorted_concrete | sorted_concrete]. Qed.

Lemma foil_ordered : mses_ordered foil_x 2.
Proof. repeat split; [simpl; lia | sorted_concrete | sorted_concrete]. Qed.

Lemma split_merge_round_trip_foil :
  exists xup xlo yup ylo,
    MsesSplit foil_x foil_x = Ok (xup, xlo) /\
    MsesSplit foil_x foil_y = Ok (yup, ylo) /\
    (~ LE_duplicated xlo xup ylo yup ->
     MsesMerge xlo xup ylo yup = Ok (foil_x, foil_y)) /\
    (LE_duplicated xlo xup ylo yup ->
     MsesMerge xlo xup ylo yup =
     Ok (remove_at 3 foil_x, remove_at 3 foil_y)).
Proof.
  apply (split_merge_round_trip foil_x foil_y 2);
    [exact foil_ordered | reflexivity].
Defined.

Lemma split_conserves_points_wedge :
  exists up lo,
    MsesSplit wedge_x wedge_y = Ok (up, lo) /\
    (length up + length lo = length wedge_y)%nat /\
    rev up ++ lo = wedge_y /\
    Permutation (up ++ lo) wedge_y.
Proof.
  apply (split_conserves_points wedge_x wedge_y 2); reflexivity.
Defined.

Lemma FindLE_without_leading_edge_321 :
  FindLE [3; 2; 1] = Ok None /\
  FindLE [] = Raise IndexError /\
  FindLE [1; 2; 3; 4; 5] = Ok (Some 0%nat) /\
  (forall X', ~ raises (FindLE X') "MalformedCurveError").
Proof.
  apply (FindLE_without_leading_edge [3; 2; 1]);
    [discriminate | sorted_concrete].
Defined.

Lemma merge_layout_foil :
  exists x y,
    MsesMerge [0; 0.5; 1] [0; 0.5; 1] [0; -0.06; 0] [0; 0.06; 0] = Ok (x, y) /\
    firstn 3 x = rev [0; 0.5; 1] /\
    firstn 3 y = rev [0; 0.06; 0] /\
    (LE_duplicated [0; 0.5; 1] [0; 0.5; 1] [0; -0.06; 0] [0; 0.06; 0] ->
     skipn 3 x = tl [0; 0.5; 1] /\ skipn 3 y = tl [0; -0.06; 0] /\
     length x = (3 + 3 - 1)%nat /\ length y = length x) /\
    (~ LE_duplicated [0; 0.5; 1] [0; 0.5; 1] [0; -0.06; 0] [0; 0.06; 0] ->
     skipn 3 x = [0; 0.5; 1] /\ skipn 3 y = [0; -0.06; 0] /\
     length x = (3 + 3)%nat /\ length y = length x).
Proof.
  apply (merge_layout [0; 0.5; 1] [0; 0.5; 1] [0; -0.06; 0] [0; 0.06; 0]);
    (reflexivity || discriminate).
Defined.

Lemma MsesInterp_exact_at_nodes_wedge :
  exists xup xlo yup ylo,
    MsesSplit wedge_x wedge_x = Ok (xup, xlo) /\
    MsesSplit wedge_x wedge_y = Ok (yup, ylo) /\
    (exists lo', MsesInterp xup wedge_x wedge_y = Ok (yup, lo')) /\
    (strictly_ascending xlo ->
     exists up', MsesInterp xlo wedge_x wedge_y = Ok (up', ylo)).
Proof.
  apply (MsesInterp_exact_at_nodes wedge_x wedge_y 2);
    [exact wedge_ordered | reflexivity].
Defined.

Lemma split_x_ascending_plateau :
  exists xup xlo,
    MsesSplit plateau_x plateau_x = Ok (xup, xlo) /\
    ascending xup /\ ascending xlo /\
    xup = rev (firstn 3 plateau_x) /\
    strictly_decreasing (firstn 3 plateau_x) /\
    strictly_ascending xup.
Proof. apply (split_x_ascending plateau_x 2). exact plateau_ordered. Defined.

Lemma length_mismatch_behaviour_wedge :
  MsesSplit wedge_x [7] = Ok (rev (firstn 3 [7]), skipn 3 [7]) /\
  MsesInterp [1] wedge_x [7] = Raise ValueError /\
  (forall x' y', ~ raises (MsesSplit x' y') "LengthMismatchError") /\
  (forall xout' x' y', ~ raises (MsesInterp xout' x' y') "LengthMismatchError") /\
  (forall xlo xup ylo yup,
      ~ raises (MsesMerge xlo xup ylo yup) "LengthMismatchError").
Proof.
  apply (length_mismatch_behaviour [1] wedge_x [7] 2);
    [reflexivity | simpl; lia].
Defined.

Lemma empty_surface_behaviour_wedge :
  [30; 20; 10] <> [] /\ [40; 50] <> [] /\
  (forall xlo xup ylo yup,
      xlo = [] \/ xup = [] ->
      MsesMerge xlo xup ylo yup = Raise IndexError) /\
  (forall x' y', ~ raises (MsesSplit x' y') "EmptySurfaceError") /\
  (forall xlo xup ylo yup,
      ~ raises (MsesMerge xlo xup ylo yup) "EmptySurfaceError").
Proof.
  apply (empty_surface_behaviour wedge_x wedge_y [30; 20; 10] [40; 50]);
    reflexivity.
Defined.

(** * Further properties of the code *)

(** ** FindLE *)

(** [FindLE] reads [X] up to the item after the index it returns, and no
    further: that index is never the last one, and whatever follows
    [X[i+1]] can be replaced without changing the result. *)
Theorem FindLE_reads_prefix (X : list Q) (i : nat) :
  FindLE X = Ok (Some i) ->
  (S i < length X)%nat /\
  forall Y, FindLE (firstn (S (S i)) X ++ Y) = Ok (Some i).
Proof.
  intro H. apply FindLE_Some_sorted in H. destruct H as (Hlen & Hs & Hstep).
  split; [exact Hlen|]. intro Y. apply FindLE_Some_sorted.
  assert (Hl : length (firstn (S (S i)) X) = S (S i))
    by (apply firstn_length_le; lia).
  repeat split.
  - rewrite length_app, Hl. lia.
  - rewrite firstn_app, Hl, firstn_firstn.
    replace (S i - S (S i))%nat with 0%nat by lia.
    replace (Nat.min (S i) (S (S i))) with (S i) by lia.
    simpl firstn at 2. rewrite app_nil_r. exact Hs.
  - rewrite !app_nth1 by lia. rewrite !nth_firstn.
    destruct (Nat.ltb_spec i (S (S i))); [|lia].
    destruct (Nat.ltb_spec (S i) (S (S i))); [|lia]. exact Hstep.
Qed.

Lemma decreasing_prefix_min (l : list Q) :
  forall i, (i < length l)%nat -> Sorted gtQ (firstn (S i) l) ->
            Forall (fun v => nth i l 0 <= v) (firstn (S i) l).
Proof.
  induction l as [|a l IH]; intros i Hi Hs; [simpl in Hi; lia|].
  destruct i as [|i].
  - simpl. constructor; [apply Qle_refl | constructor].
  - change (firstn (S (S i)) (a :: l)) with (a :: firstn (S i) l) in *.
    inversion Hs as [|? ? Htl Hhd]; subst.
    assert (Hi' : (i < length l)%nat) by (simpl in Hi; lia).
    specialize (IH i Hi' Htl). simpl nth.
    constructor; [|exact IH].
    destruct l as [|b l]; [simpl in Hi'; lia|].
    simpl firstn in Hhd, IH. inversion Hhd as [|? ? Hba]; subst.
    inversion IH as [|? ? Hb _]; subst. unfold gtQ in Hba.
    apply Qlt_le_weak. eapply Qle_lt_trans; eassumption.
Qed.

(** On an MSES-ordered sequence the index [FindLE] returns is that of the
    smallest x: no point of the curve lies in front of the leading edge. *)
Theorem FindLE_minimum (x : list Q) (iLE : nat) :
  mses_ordered x iLE ->
  FindLE x = Ok (Some iLE) /\
  Forall (fun v => nth iLE x 0 <= v) x.
Proof.
  intros Hord. split; [now apply mses_ordered_FindLE|].
  destruct Hord as (Hlen & Hup & Hlo).
  cut (Forall (fun v => nth iLE x 0 <= v)
              (firstn (S iLE) x ++ skipn (S iLE) x));
    [now rewrite firstn_skipn|].
  apply Forall_app. split.
  - apply decreasing_prefix_min; [lia | exact Hup].
  - apply Sorted_StronglySorted in Hlo; [|exact Qle_trans'].
    rewrite (skipn_nth_cons x iLE) in Hlo by lia.
    now inversion Hlo.
Qed.

Lemma FindLE_loop_map (f : Q -> Q) (tail : list Q) :
  (forall a b, a <= b <-> f a <= f b) ->
  forall xold k,
    FindLE_loop (f xold) (map f tail) k = FindLE_loop xold tail k.
Proof.
  intro Hf. induction tail as [|x rest IH]; intros xold k; simpl.
  - reflexivity.
  - rewrite IH. destruct (Qle_bool xold x) eqn:E.
    + apply Qle_bool_iff, Hf, Qle_bool_iff in E. now rewrite E.
    + destruct (Qle_bool (f xold) (f x)) eqn:E'; [|reflexivity].
      apply Qle_bool_iff, Hf, Qle_bool_iff in E'. congruence.
Qed.

(** [FindLE] only compares: a change of the x values that keeps their
    order (shifting the origin, scaling by a positive chord) leaves its
    result as it is. *)
Theorem FindLE_order_preserving (f : Q -> Q) (X : list Q) :
  (forall a b, a <= b <-> f a <= f b) ->
  FindLE (map f X) = FindLE X.
Proof.
  intro Hf. destruct X as [|xold tail]; [reflexivity|].
  change (map f (xold :: tail)) with (f xold :: map f tail).
  rewrite !FindLE_cons. f_equal. now apply FindLE_loop_map.
Qed.

(** ** MsesSplit *)

(** [MsesSplit] fails exactly when [FindLE] has no index to give, and how
    it fails depends on [x] alone: [IndexError] on an empty [x],
    [TypeError] on a non-empty strictly decreasing [x] ([None + 1]), and no
    other exception; [y] is never looked at before the slicing. *)
Theorem MsesSplit_failures (x y : list Q) (e : exn) :
  MsesSplit x y = Raise e <->
  (x = [] /\ e = IndexError) \/
  (x <> [] /\ Sorted gtQ x /\ e = TypeError).
Proof.
  unfold MsesSplit. destruct x as [|xold tail].
  - simpl. split.
    + intros [= <-]. left. now split.
    + intros [[_ ->] | [H _]]; [reflexivity | now elim H].
  - rewrite FindLE_cons. cbn [bind].
    destruct (FindLE_loop xold tail 0) as [i|] eqn:E.
    + split; [discriminate|].
      intros [[H _] | (_ & Hs & _)]; [discriminate H|].
      apply FindLE_loop_None in Hs. congruence.
    + apply FindLE_loop_None in E. split.
      * intros [= <-]. right. repeat split; [discriminate | exact E].
      * intros [[H _] | (_ & _ & ->)]; [discriminate H | reflexivity].
Qed.

Lemma combine_snoc (a b : list Q) (u v : Q) :
  length a = length b ->
  combine (a ++ [u]) (b ++ [v]) = combine a b ++ [(u, v)].
Proof.
  revert b. induction a as [|p a IH]; intros [|q b] H;
    simpl in *; try discriminate; [reflexivity|].
  f_equal. apply IH. lia.
Qed.

Lemma combine_rev (a : list Q) :
  forall b : list Q, length a = length b ->
            combine (rev a) (rev b) = rev (combine a b).
Proof.
  induction a as [|p a IH]; intros [|q b] H; simpl in *; try discriminate;
    [reflexivity|].
  rewrite combine_snoc by (rewrite !length_rev; lia).
  f_equal. apply IH. lia.
Qed.

Lemma combine_skipn (a : list Q) :
  forall (b : list Q) n,
    skipn n (combine a b) = combine (skipn n a) (skipn n b).
Proof.
  induction a as [|p a IH]; intros b n.
  - destruct n; reflexivity.
  - destruct b as [|q b].
    + destruct n; simpl; [reflexivity|]. now rewrite combine_nil.
    + destruct n; simpl; [reflexivity | apply IH].
Qed.

(** Splitting [x] against itself and [y] against [x] keeps the points
    together: paired up again, the two upper outputs are the curve's points
    [0 .. iLE] in reverse order, and the two lower outputs its points from
    [iLE + 1] on. *)
Theorem MsesSplit_keeps_points (x y : list Q) (i : nat) :
  FindLE x = Ok (Some i) -> length y = length x ->
  exists xup xlo yup ylo,
    MsesSplit x x = Ok (xup, xlo) /\
    MsesSplit x y = Ok (yup, ylo) /\
    combine xup yup = rev (firstn (S i) (combine x y)) /\
    combine xlo ylo = skipn (S i) (combine x y).
Proof.
  intros HLE Hlen.
  exists (rev (firstn (S i) x)), (skipn (S i) x),
         (rev (firstn (S i) y)), (skipn (S i) y).
  split; [now apply MsesSplit_Some|]. split; [now apply MsesSplit_Some|].
  split.
  - rewrite combine_rev by (rewrite !length_firstn; lia).
    now rewrite combine_firstn.
  - now rewrite combine_skipn.
Qed.

Lemma firstn_S_snoc (l : list Q) :
  forall i, (i < length l)%nat ->
            firstn (S i) l = firstn i l ++ [nth i l 0].
Proof.
  induction l as [|a l IH]; intros [|i] H; simpl in *; try lia.
  - reflexivity.
  - f_equal. apply IH. lia.
Qed.

Lemma rev_firstn_S (l : list Q) (i : nat) :
  (i < length l)%nat ->
  rev (firstn (S i) l) = nth i l 0 :: rev (firstn i l).
Proof.
  intro H. rewrite firstn_S_snoc by exact H.
  now rewrite rev_app_distr.
Qed.

Lemma last_rev_firstn_S (l : list Q) (i : nat) :
  l <> [] -> last (rev (firstn (S i) l)) 0 = nth 0 l 0.
Proof.
  destruct l as [|a l]; [easy|]. intros _.
  change (firstn (S i) (a :: l)) with (a :: firstn i l).
  simpl rev. apply last_last.
Qed.

Lemma last_skipn (l : list Q) :
  forall k, (k < length l)%nat -> last (skipn k l) 0 = last l 0.
Proof.
  induction l as [|a l IH]; intros [|k] H; simpl in H; try lia.
  - reflexivity.
  - change (skipn (S k) (a :: l)) with (skipn k l).
    rewrite IH by lia. destruct l; [simpl in H; lia | reflexivity].
Qed.

(** The orientation of the two outputs: the upper one runs from the
    leading-edge item [y[iLE]] to the first item [y[0]], the lower one from
    [y[iLE+1]] to the last item of [y]. *)
Theorem MsesSplit_end_points (x y : list Q) (i : nat) :
  FindLE x = Ok (Some i) -> length y = length x ->
  exists up lo,
    MsesSplit x y = Ok (up, lo) /\
    hd 0 up = nth i y 0 /\ last up 0 = nth 0 y 0 /\
    hd 0 lo = nth (S i) y 0 /\ last lo 0 = last y 0.
Proof.
  intros HLE Hlen.
  pose proof (proj1 (FindLE_Some_sorted x i) HLE) as (Hi & _ & _).
  exists (rev (firstn (S i) y)), (skipn (S i) y).
  split; [now apply MsesSplit_Some|].
  assert (Hne : y <> []) by (intros ->; simpl in Hlen; lia).
  repeat split.
  - rewrite rev_firstn_S by lia. reflexivity.
  - now apply last_rev_firstn_S.
  - rewrite (skipn_nth_cons y (S i)) by lia. reflexivity.
  - apply last_skipn. lia.
Qed.

(** ** main *)

(** [main] never gets past its split step on a file of two or more data
    rows: it stops there with [TypeError] exactly when the x column is
    strictly decreasing, and in every other case, exactly when [FindLE]
    finds an index, with the [ValueError] of unpacking two values into four
    names. *)
Theorem main_stops_at_split (x z : list Q) :
  (2 <= length x)%nat -> length z = length x ->
  exists e,
    main_split x z = Raise e /\
    (e = TypeError \/ e = ValueError) /\
    (e = TypeError <-> Sorted gtQ x) /\
    (e = ValueError <-> exists i, FindLE x = Ok (Some i)).
Proof.
  intros Hx _. unfold main_split, MsesSplit.
  destruct x as [|xold tail]; [simpl in Hx; lia|].
  rewrite FindLE_cons. cbn [bind].
  destruct (FindLE_loop xold tail 0) as [i|] eqn:E.
  - exists ValueError. split; [reflexivity|]. split; [now right|]. split.
    + split; [discriminate|]. intro Hs.
      apply FindLE_loop_None in Hs. congruence.
    + split; [intros _; now exists i | reflexivity].
  - exists TypeError. split; [reflexivity|]. split; [now left|]. split.
    + split; [|reflexivity]. intros _. now apply FindLE_loop_None.
    + split; [discriminate | intros [i H]; discriminate H].
Qed.

(** ** MsesMerge *)

Lemma fits_dec (v : list Q) (n : nat) : {fits v n} + {~ fits v n}.
Proof.
  unfold fits. destruct (Nat.eq_dec (length v) n) as [H|H]; [now left; left|].
  destruct (Nat.eq_dec (length v) 1) as [H1|H1]; [now left; right|].
  right. intros [?|?]; contradiction.
Qed.

Lemma broadcast_to_length (v : list Q) (n : nat) :
  fits v n -> length (broadcast_to v n) = n.
Proof.
  unfold broadcast_to. intros H. destruct (Nat.eqb_spec (length v) n) as [E|E].
  - exact E.
  - apply repeat_length.
Qed.

(** A slice assignment stores the broadcast value when it fits, and is a
    [ValueError] when it does not. *)
Lemma set_slice_cases (a : list Q) (lo hi : nat) (v : list Q) :
  (fits v (hi - lo) ->
   set_slice a lo hi v =
   Ok (firstn lo a ++ broadcast_to v (hi - lo) ++ skipn hi a)) /\
  (~ fits v (hi - lo) -> set_slice a lo hi v = Raise ValueError).
Proof.
  unfold set_slice, broadcast_to, fits.
  destruct (Nat.eqb_spec (length v) (hi - lo)) as [E|E].
  - split; [reflexivity | intro H; elim H; now left].
  - destruct v as [|c [|d v]]; simpl in *.
    + split; [intros [H|H]; [now elim E | discriminate H] | reflexivity].
    + split; [reflexivity | intro H; elim H; now right].
    + split; [intros [H|H]; [now elim E | discriminate H] | reflexivity].
Qed.

Lemma set_slice_front_cases (v : list Q) (n1 m : nat) :
  (fits v n1 ->
   set_slice (np_zeros (n1 + m)) 0 n1 v = Ok (broadcast_to v n1 ++ np_zeros m)) /\
  (~ fits v n1 -> set_slice (np_zeros (n1 + m)) 0 n1 v = Raise ValueError).
Proof.
  destruct (set_slice_cases (np_zeros (n1 + m)) 0 n1 v) as [Hok Hbad].
  rewrite Nat.sub_0_r in Hok, Hbad. split; [|exact Hbad].
  intro H. rewrite (Hok H). unfold np_zeros. simpl.
  rewrite repeat_app, skipn_app, repeat_length, Nat.sub_diag.
  rewrite skipn_all2 by (rewrite repeat_length; lia). reflexivity.
Qed.

Lemma set_slice_back_cases (w v : list Q) (n1 m : nat) :
  length w = n1 ->
  (fits v m ->
   set_slice (w ++ np_zeros m) n1 (n1 + m) v = Ok (w ++ broadcast_to v m)) /\
  (~ fits v m ->
   set_slice (w ++ np_zeros m) n1 (n1 + m) v = Raise ValueError).
Proof.
  intros <-.
  destruct (set_slice_cases (w ++ np_zeros m) (length w) (length w + m) v)
    as [Hok Hbad].
  replace (length w + m - length w)%nat with m in Hok, Hbad by lia.
  split; [|exact Hbad]. intro H. rewrite (Hok H). unfold np_zeros.
  rewrite firstn_app, Nat.sub_diag, firstn_all. simpl. rewrite app_nil_r.
  rewrite skipn_all2 by (rewrite length_app, repeat_length; lia).
  now rewrite app_nil_r.
Qed.

(** Once the guard has evaluated to [g], [MsesMerge] is decided by the
    lengths of the y sequences alone: when [yup] fits the upper part and the
    (possibly trimmed) [ylo] the lower part, it returns the reversed upper x
    followed by the lower x, and, as y, what NumPy stores, a one-item y
    sequence being repeated over its whole part; otherwise it raises
    [ValueError]. *)
Theorem MsesMerge_outcome (xlo xup ylo yup : list Q) (g : bool) :
  drop_LE_guard xlo xup ylo yup = Ok g ->
  let xlo' := if g then tl xlo else xlo in
  let ylo' := if g then tl ylo else ylo in
  (fits yup (length xup) /\ fits ylo' (length xlo') ->
   MsesMerge xlo xup ylo yup =
   Ok (rev xup ++ xlo',
       broadcast_to (rev yup) (length xup) ++
       broadcast_to ylo' (length xlo'))) /\
  (~ (fits yup (length xup) /\ fits ylo' (length xlo')) ->
   MsesMerge xlo xup ylo yup = Raise ValueError).
Proof.
  intros Hg xlo' ylo'. unfold MsesMerge. rewrite Hg. cbn [bind].
  unfold slice_from, slice_rev.
  change (skipn 1 xlo) with (tl xlo). change (skipn 1 ylo) with (tl ylo).
  fold xlo' ylo'.
  rewrite set_slice_front by apply length_rev. cbn [bind].
  destruct (set_slice_front_cases (rev yup) (length xup) (length xlo'))
    as [Hu Hu'].
  assert (Hfr : fits (rev yup) (length xup) <-> fits yup (length xup))
    by (unfold fits; now rewrite length_rev).
  destruct (fits_dec yup (length xup)) as [Fu|Fu].
  - rewrite (Hu (proj2 Hfr Fu)). cbn [bind].
    rewrite set_slice_back by (rewrite ?length_rev; reflexivity). cbn [bind].
    destruct (set_slice_back_cases
                (broadcast_to (rev yup) (length xup)) ylo'
                (length xup) (length xlo')
                (broadcast_to_length _ _ (proj2 Hfr Fu))) as [Hl Hl'].
    destruct (fits_dec ylo' (length xlo')) as [Fl|Fl].
    + rewrite (Hl Fl). cbn [bind].
      split; [reflexivity | intro H; elim H; now split].
    + rewrite (Hl' Fl). cbn [bind].
      split; [intros [_ H]; contradiction | reflexivity].
  - rewrite Hu' by (intro H; apply Fu, Hfr, H). cbn [bind].
    split; [intros [H _]; contradiction | reflexivity].
Qed.

Lemma MsesMerge_guard_raises (xlo xup ylo yup : list Q) (e : exn) :
  drop_LE_guard xlo xup ylo yup = Raise e ->
  MsesMerge xlo xup ylo yup = Raise e.
Proof. intro H. unfold MsesMerge. now rewrite H. Qed.

(** Whenever [MsesMerge] returns, also on y sequences that do not pair up
    with the x sequences, the x output is the reversed upper x followed by
    the lower x, whole or without its first item, and the y output has the
    x output's length. *)
Theorem MsesMerge_shape (xlo xup ylo yup x y : list Q) :
  MsesMerge xlo xup ylo yup = Ok (x, y) ->
  (x = rev xup ++ xlo \/ x = rev xup ++ tl xlo) /\
  length y = length x.
Proof.
  intro H. destruct (drop_LE_guard xlo xup ylo yup) as [g|e] eqn:Hg;
    [|rewrite (MsesMerge_guard_raises _ _ _ _ e Hg) in H; discriminate H].
  destruct (MsesMerge_outcome xlo xup ylo yup g Hg) as [Hok Hbad].
  cbv zeta in Hok, Hbad.
  destruct (fits_dec yup (length xup)) as [Fu|Fu];
    [destruct (fits_dec (if g then tl ylo else ylo)
                        (length (if g then tl xlo else xlo))) as [Fl|Fl]|].
  - rewrite (Hok (conj Fu Fl)) in H. injection H as <- <-. split.
    + destruct g; [now right | now left].
    + rewrite !length_app, length_rev.
      rewrite !broadcast_to_length; [reflexivity | exact Fl |].
      unfold fits in *. now rewrite length_rev.
  - rewrite Hbad in H by (intros [_ F]; contradiction). discriminate H.
  - rewrite Hbad in H by (intros [F _]; contradiction). discriminate H.
Qed.

Lemma drop_LE_guard_raises (xlo xup ylo yup : list Q) (e : exn) :
  drop_LE_guard xlo xup ylo yup = Raise e <->
  e = IndexError /\
  (xlo = [] \/ xup = [] \/
   (hd 0 xlo == hd 0 xup /\ (ylo = [] \/ (hd 0 ylo == 0 /\ yup = [])))).
Proof.
  unfold drop_LE_guard.
  destruct xlo as [|a xlo]; simpl.
  - split; [intros [= <-]; auto | now intros [-> _]].
  - destruct xup as [|b xup]; simpl.
    + split; [intros [= <-]; auto | now intros [-> _]].
    + destruct (Qeq_bool a b) eqn:Eab.
      * apply Qeq_bool_true in Eab. destruct ylo as [|c ylo]; simpl.
        -- split; [intros [= <-]; auto 6 | now intros [-> _]].
        -- destruct (Qeq_bool c 0) eqn:Ec.
           ++ apply Qeq_bool_true in Ec. destruct yup as [|d yup]; simpl.
              ** split; [intros [= <-]; auto 8 | now intros [-> _]].
              ** split; [discriminate|].
                 intros [_ [H | [H | [_ [H | [_ H]]]]]]; discriminate H.
           ++ split; [discriminate|].
              intros [_ [H | [H | [_ [H | [H _]]]]]]; try discriminate H.
              apply Qeq_bool_true in H. simpl in H. congruence.
      * split; [discriminate|].
        intros [_ [H | [H | [H _]]]]; try discriminate H.
        apply Qeq_bool_true in H. simpl in H. congruence.
Qed.

(** [MsesMerge] raises [IndexError] exactly when an item its guard indexes
    does not exist: [xlo] or [xup] is empty, or the two first x are equal
    and [ylo] is empty, or they are equal, [ylo[0]] is zero and [yup] is
    empty.  An empty [ylo] or [yup] goes unnoticed by the guard when the
    first x differ.  It never raises [TypeError]. *)
Theorem MsesMerge_IndexError (xlo xup ylo yup : list Q) :
  (MsesMerge xlo xup ylo yup = Raise IndexError <->
   xlo = [] \/ xup = [] \/
   (hd 0 xlo == hd 0 xup /\ (ylo = [] \/ (hd 0 ylo == 0 /\ yup = [])))) /\
  MsesMerge xlo xup ylo yup <> Raise TypeError.
Proof.
  destruct (drop_LE_guard xlo xup ylo yup) as [g|e] eqn:Hg.
  - destruct (MsesMerge_outcome xlo xup ylo yup g Hg) as [Hok Hbad].
    cbv zeta in Hok, Hbad.
    assert (Hno : forall e, e <> ValueError ->
                            MsesMerge xlo xup ylo yup <> Raise e).
    { intros e He.
      destruct (fits_dec yup (length xup)) as [Fu|Fu];
        [destruct (fits_dec (if g then tl ylo else ylo)
                            (length (if g then tl xlo else xlo))) as [Fl|Fl]|].
      - rewrite (Hok (conj Fu Fl)). discriminate.
      - rewrite Hbad by (intros [_ F]; contradiction). congruence.
      - rewrite Hbad by (intros [F _]; contradiction). congruence. }
    split; [|apply Hno; discriminate]. split.
    + intro H. exfalso. revert H. apply Hno. discriminate.
    + intro H.
      assert (Hr : drop_LE_guard xlo xup ylo yup = Raise IndexError)
        by (apply drop_LE_guard_raises; now split).
      congruence.
  - rewrite (MsesMerge_guard_raises _ _ _ _ e Hg).
    apply drop_LE_guard_raises in Hg. destruct Hg as [-> Hc].
    split; [|discriminate]. split; [intros _; exact Hc | reflexivity].
Qed.

(** Merging, then splitting again: when the surfaces pair up, the upper x
    is strictly ascending and the merged x does not decrease right after
    its upper part, [MsesSplit] of the merged curve gives back the upper
    surface and the lower surface that [MsesMerge] kept (the whole of it, or
    all but its first point). *)
Theorem merge_split_round_trip (xlo xup ylo yup x y : list Q) :
  length ylo = length xlo -> length yup = length xup ->
  strictly_ascending xup ->
  MsesMerge xlo xup ylo yup = Ok (x, y) ->
  nondecreasing_step x (length xup - 1) ->
  exists xlo' ylo',
    x = rev xup ++ xlo' /\ y = rev yup ++ ylo' /\
    (xlo' = xlo /\ ylo' = ylo \/ xlo' = tl xlo /\ ylo' = tl ylo) /\
    MsesSplit x x = Ok (xup, xlo') /\
    MsesSplit x y = Ok (yup, ylo').
Proof.
  intros Hlo Hup Hasc Hm Hstep.
  destruct (drop_LE_guard xlo xup ylo yup) as [g|e] eqn:Hg;
    [|rewrite (MsesMerge_guard_raises _ _ _ _ e Hg) in Hm; discriminate Hm].
  rewrite (MsesMerge_paired _ _ _ _ g Hg) in Hm by congruence.
  injection Hm as <- <-.
  set (xlo' := if g then tl xlo else xlo) in *.
  set (ylo' := if g then tl ylo else ylo) in *.
  exists xlo', ylo'. split; [reflexivity|]. split; [reflexivity|].
  split; [subst xlo' ylo'; destruct g; auto|].
  assert (Hn : (0 < length xup)%nat).
  { destruct xup; [|simpl; lia].
    unfold drop_LE_guard in Hg. destruct xlo; discriminate Hg. }
  assert (HS : S (length xup - 1) = length xup) by lia.
  assert (Hfx : firstn (length xup) (rev xup ++ xlo') = rev xup).
  { rewrite <- (length_rev xup), firstn_app, Nat.sub_diag, firstn_all.
    simpl. apply app_nil_r. }
  assert (Hfy : firstn (length xup) (rev yup ++ ylo') = rev yup).
  { rewrite <- Hup, <- (length_rev yup), firstn_app, Nat.sub_diag.
    rewrite firstn_all. simpl. apply app_nil_r. }
  assert (Hsx : skipn (length xup) (rev xup ++ xlo') = xlo').
  { rewrite <- (length_rev xup), skipn_app, Nat.sub_diag, skipn_all.
    reflexivity. }
  assert (Hsy : skipn (length xup) (rev yup ++ ylo') = ylo').
  { rewrite <- Hup, <- (length_rev yup), skipn_app, Nat.sub_diag.
    rewrite skipn_all. reflexivity. }
  assert (HLE : FindLE (rev xup ++ xlo') = Ok (Some (length xup - 1)%nat)).
  { apply FindLE_Some_sorted. destruct Hstep as [Hl Hs].
    split; [exact Hl|]. split; [|exact Hs].
    rewrite HS, Hfx. apply StronglySorted_Sorted.
    exact (StronglySorted_rev _ _ _ Hasc). }
  rewrite !(MsesSplit_Some _ _ _ HLE), HS, Hfx, Hfy, Hsx, Hsy.
  now rewrite !rev_involutive.
Qed.

(** ** MsesInterp *)

Lemma MsesInterp_mismatch (xout x y : list Q) (i : nat) :
  FindLE x = Ok (Some i) -> length y <> length x ->
  MsesInterp xout x y = Raise ValueError.
Proof.
  intros HLE Hlen. rewrite (MsesInterp_unfold _ x y i HLE).
  pose proof (proj1 (FindLE_Some_sorted x i) HLE) as (Hi & _ & _).
  destruct (split_lengths x i Hi) as (Hxu & Hxl & Hxne).
  unfold np_interp at 1.
  destruct (rev (firstn (S i) x)) as [|a up] eqn:Eup; [discriminate|].
  destruct (Nat.eqb_spec (length (rev (firstn (S i) y))) (length (a :: up)))
    as [E1|E1]; [|reflexivity].
  cbn [bind]. unfold np_interp.
  destruct (skipn (S i) x) as [|b lo] eqn:Elo; [easy|].
  destruct (Nat.eqb_spec (length (skipn (S i) y)) (length (b :: lo)))
    as [E2|E2]; [|reflexivity].
  exfalso. rewrite length_rev, length_firstn in E1.
  rewrite length_skipn in E2. lia.
Qed.

Lemma np_interp_length (x xp fp r : list Q) :
  np_interp x xp fp = Ok r -> length r = length x.
Proof.
  unfold np_interp. destruct xp; [discriminate|].
  destruct (Nat.eqb _ _); [|discriminate].
  intros [= <-]. apply length_map.
Qed.

(** [MsesInterp] returns exactly when [FindLE] finds an index in [xmses]
    and [ymses] has the length of [xmses]; both of its outputs then have
    one value for each item of [xout]. *)
Theorem MsesInterp_returns_iff (xout x y : list Q) :
  ((exists yup ylo, MsesInterp xout x y = Ok (yup, ylo)) <->
   (exists i, FindLE x = Ok (Some i)) /\ length y = length x) /\
  (forall yup ylo,
      MsesInterp xout x y = Ok (yup, ylo) ->
      length yup = length xout /\ length ylo = length xout).
Proof.
  split; [split|].
  - intros (yup & ylo & H).
    destruct (FindLE x) as [[i|]|e] eqn:HLE.
    + split; [now exists i|].
      destruct (Nat.eq_dec (length y) (length x)) as [E|E]; [exact E|].
      rewrite (MsesInterp_mismatch xout x y i HLE E) in H. discriminate H.
    + unfold MsesInterp, MsesSplit in H. rewrite HLE in H. discriminate H.
    + unfold MsesInterp, MsesSplit in H. rewrite HLE in H. discriminate H.
  - intros [[i HLE] Hlen]. rewrite (MsesInterp_unfold _ x y i HLE).
    pose proof (proj1 (FindLE_Some_sorted x i) HLE) as (Hi & _ & _).
    assert (Hiy : (S i < length y)%nat) by lia.
    destruct (split_lengths x i Hi) as (Hxu & Hxl & Hxne).
    destruct (split_lengths y i Hiy) as (Hyu & Hyl & Hyne).
    rewrite !np_interp_returns; try lia; try assumption.
    + cbn [bind]. eexists _, _. reflexivity.
    + intro E. rewrite E in Hxu. discriminate Hxu.
  - intros yup ylo H. unfold MsesInterp in H.
    destruct (MsesSplit x x) as [[xu xl]|e]; [|discriminate H].
    destruct (MsesSplit x y) as [[yu yl]|e]; [|discriminate H].
    cbn [bind] in H.
    destruct (np_interp xout xu yu) as [r1|e] eqn:E1; [|discriminate H].
    destruct (np_interp xout xl yl) as [r2|e] eqn:E2; [|discriminate H].
    cbn [bind] in H. injection H as <- <-.
    split; eapply np_interp_length; eassumption.
Qed.

Lemma interp1_below (xp fp : list Q) (q : Q) :
  length fp = length xp -> q < hd 0 xp -> interp1 xp fp q = hd 0 fp.
Proof.
  intros Hlen H.
  destruct xp as [|x0 xp], fp as [|f0 fp]; try reflexivity;
    try discriminate Hlen.
  simpl in *. apply Qle_bool_false in H. now rewrite H.
Qed.

Lemma interp_scan_above (q : Q) (xp : list Q) :
  forall fp x0 f0,
    length fp = length xp -> Forall (fun v => v <= q) xp ->
    interp_scan q x0 f0 xp fp = last (f0 :: fp) 0.
Proof.
  induction xp as [|x1 xp IH]; intros fp x0 f0 Hlen Hall.
  - destruct fp; [reflexivity | discriminate].
  - destruct fp as [|f1 fp]; [discriminate|].
    inversion Hall as [|? ? Hle Hall']; subst.
    apply Qle_bool_iff in Hle. cbn [interp_scan]. rewrite Hle.
    rewrite IH by (simpl in Hlen; lia || assumption). reflexivity.
Qed.

Lemma interp1_above (xp fp : list Q) (q : Q) :
  xp <> [] -> length fp = length xp -> Forall (fun v => v <= q) xp ->
  interp1 xp fp q = last fp 0.
Proof.
  intros Hne Hlen Hall. destruct xp as [|x0 xp]; [easy|].
  destruct fp as [|f0 fp]; [discriminate|].
  inversion Hall as [|? ? Hle Hall']; subst.
  apply Qle_bool_iff in Hle. unfold interp1. rewrite Hle.
  apply interp_scan_above; [simpl in Hlen; lia | exact Hall'].
Qed.

(** In front of the curve [MsesInterp] extends each surface flat, as
    [np.interp] does: at a target x smaller than every x of the curve it
    returns the y at the leading edge, [y[iLE]], for the upper surface and
    [y[iLE+1]] for the lower one. *)
Theorem MsesInterp_flat_in_front (x y : list Q) (i : nat) (q : Q) :
  FindLE x = Ok (Some i) -> length y = length x ->
  Forall (fun v => q < v) x ->
  MsesInterp [q] x y = Ok ([nth i y 0], [nth (S i) y 0]).
Proof.
  intros HLE Hlen Hall. rewrite (MsesInterp_unfold _ x y i HLE).
  pose proof (proj1 (FindLE_Some_sorted x i) HLE) as (Hi & _ & _).
  assert (Hiy : (S i < length y)%nat) by lia.
  destruct (split_lengths x i Hi) as (Hxu & Hxl & Hxne).
  destruct (split_lengths y i Hiy) as (Hyu & Hyl & Hyne).
  assert (Hxune : rev (firstn (S i) x) <> [])
    by (intro E; rewrite E in Hxu; discriminate).
  rewrite Forall_forall in Hall.
  assert (Hu : q < nth i x 0) by (apply Hall, nth_In; lia).
  assert (Hl : q < nth (S i) x 0) by (apply Hall, nth_In; lia).
  rewrite !np_interp_returns; try lia; try assumption.
  cbn [bind map].
  rewrite (interp1_below (rev (firstn (S i) x)))
    by (lia || (rewrite (rev_firstn_S x i) by lia; exact Hu)).
  rewrite (interp1_below (skipn (S i) x))
    by (lia || (rewrite (skipn_nth_cons x (S i)) by lia; exact Hl)).
  rewrite (rev_firstn_S y i) by lia.
  rewrite (skipn_nth_cons y (S i)) by lia. reflexivity.
Qed.

(** Behind the curve likewise: at a target x that no x of the curve
    exceeds, [MsesInterp] returns the first item [y[0]] for the upper
    surface and the last item of [y] for the lower one. *)
Theorem MsesInterp_flat_behind (x y : list Q) (i : nat) (q : Q) :
  FindLE x = Ok (Some i) -> length y = length x ->
  Forall (fun v => v <= q) x ->
  MsesInterp [q] x y = Ok ([nth 0 y 0], [last y 0]).
Proof.
  intros HLE Hlen Hall. rewrite (MsesInterp_unfold _ x y i HLE).
  pose proof (proj1 (FindLE_Some_sorted x i) HLE) as (Hi & _ & _).
  assert (Hiy : (S i < length y)%nat) by lia.
  destruct (split_lengths x i Hi) as (Hxu & Hxl & Hxne).
  destruct (split_lengths y i Hiy) as (Hyu & Hyl & Hyne).
  assert (Hxune : rev (firstn (S i) x) <> [])
    by (intro E; rewrite E in Hxu; discriminate).
  rewrite !np_interp_returns; try lia; try assumption.
  cbn [bind map].
  assert (Hsplit : Forall (fun v => v <= q)
                          (firstn (S i) x ++ skipn (S i) x))
    by now rewrite firstn_skipn.
  apply Forall_app in Hsplit. destruct Hsplit as [Hf Hs].
  rewrite !interp1_above; try lia; try assumption.
  - rewrite last_rev_firstn_S by (intros ->; simpl in Hiy; lia).
    rewrite last_skipn by lia. reflexivity.
  - now apply Forall_rev.
Qed.

(** ** The further properties at concrete curves *)

Lemma FindLE_reads_prefix_wedge :
  (3 < length wedge_x)%nat /\
  forall Y, FindLE (firstn 4 wedge_x ++ Y) = Ok (Some 2%nat).
Proof. apply (FindLE_reads_prefix wedge_x 2). reflexivity. Defined.

Lemma FindLE_minimum_foil :
  FindLE foil_x = Ok (Some 2%nat) /\
  Forall (fun v => nth 2 foil_x 0 <= v) foil_x.
Proof. apply (FindLE_minimum foil_x 2). exact foil_ordered. Defined.

Lemma FindLE_order_preserving_shift :
  FindLE (map (Qplus 1) wedge_x) = FindLE wedge_x.
Proof.
  apply (FindLE_order_preserving (Qplus 1) wedge_x).
  intros a b. symmetry. apply Qplus_le_r.
Defined.

Lemma MsesSplit_keeps_points_wedge :
  exists xup xlo yup ylo,
    MsesSplit wedge_x wedge_x = Ok (xup, xlo) /\
    MsesSplit wedge_x wedge_y = Ok (yup, ylo) /\
    combine xup yup = rev (firstn 3 (combine wedge_x wedge_y)) /\
    combine xlo ylo = skipn 3 (combine wedge_x wedge_y).
Proof. apply (MsesSplit_keeps_points wedge_x wedge_y 2); reflexivity. Defined.

Lemma MsesSplit_end_points_wedge :
  exists up lo,
    MsesSplit wedge_x wedge_y = Ok (up, lo) /\
    hd 0 up = nth 2 wedge_y 0 /\ last up 0 = nth 0 wedge_y 0 /\
    hd 0 lo = nth 3 wedge_y 0 /\ last lo 0 = last wedge_y 0.
Proof. apply (MsesSplit_end_points wedge_x wedge_y 2); reflexivity. Defined.

Lemma MsesMerge_outcome_one_item :
  (fits [30] 3 /\ fits [40] 2 ->
   MsesMerge [2; 3] [1; 2; 3] [40] [30] =
   Ok (rev [1; 2; 3] ++ [2; 3],
       broadcast_to (rev [30]) 3 ++ broadcast_to [40] 2)) /\
  (~ (fits [30] 3 /\ fits [40] 2) ->
   MsesMerge [2; 3] [1; 2; 3] [40] [30] = Raise ValueError).
Proof.
  apply (MsesMerge_outcome [2; 3] [1; 2; 3] [40] [30] false). reflexivity.
Defined.

Lemma MsesMerge_shape_one_item :
  ([3; 2; 1; 2; 3] = rev [1; 2; 3] ++ [2; 3] \/
   [3; 2; 1; 2; 3] = rev [1; 2; 3] ++ tl [2; 3]) /\
  length [30; 30; 30; 40; 40] = length [3; 2; 1; 2; 3].
Proof.
  apply (MsesMerge_shape [2; 3] [1; 2; 3] [40] [30]). reflexivity.
Defined.

Lemma merge_split_round_trip_wedge :
  exists xlo' ylo',
    wedge_x = rev [1; 2; 3] ++ xlo' /\ wedge_y = rev [30; 20; 10] ++ ylo' /\
    (xlo' = [2; 3] /\ ylo' = [40; 50] \/
     xlo' = tl [2; 3] /\ ylo' = tl [40; 50]) /\
    MsesSplit wedge_x wedge_x = Ok ([1; 2; 3], xlo') /\
    MsesSplit wedge_x wedge_y = Ok ([30; 20; 10], ylo').
Proof.
  apply (merge_split_round_trip [2; 3] [1; 2; 3] [40; 50] [30; 20; 10]);
    try reflexivity.
  - unfold strictly_ascending. repeat constructor; order_leaf.
  - split; [simpl; lia | order_leaf].
Defined.

Lemma MsesInterp_flat_in_front_wedge :
  MsesInterp [0] wedge_x wedge_y = Ok ([nth 2 wedge_y 0], [nth 3 wedge_y 0]).
Proof.
  apply (MsesInterp_flat_in_front wedge_x wedge_y 2 0); try reflexivity.
  unfold wedge_x. repeat constructor; order_leaf.
Defined.

Lemma main_stops_at_split_wedge :
  exists e,
    main_split wedge_x wedge_y = Raise e /\
    (e = TypeError \/ e = ValueError) /\
    (e = TypeError <-> Sorted gtQ wedge_x) /\
    (e = ValueError <-> exists i, FindLE wedge_x = Ok (Some i)).
Proof.
  apply (main_stops_at_split wedge_x wedge_y); [simpl; lia | reflexivity].
Defined.

Lemma MsesInterp_flat_behind_wedge :
  MsesInterp [4] wedge_x wedge_y = Ok ([nth 0 wedge_y 0], [last wedge_y 0]).
Proof.
  apply (MsesInterp_flat_behind wedge_x wedge_y 2 4); try reflexivity.
  unfold wedge_x. repeat constructor; order_leaf.
Defined.
